(** * TravelMap: a shallow embedding of [src/TravelMap.tsx]

    The component plots a caller-supplied list of visited places on a
    Leaflet map.  This development embeds the parts of the component that
    compute something -- the search and category filters, the list of
    category options, the star rating, the marker icons, the bounds-fit
    effect, the view state with its event handlers and the element tree the
    component renders -- and proves the properties the specification states
    about them.

    Conventions.
    - A JavaScript string is a [string]; only equality, emptiness,
      concatenation and substring search are used, and [toLowerCase] is a
      parameter of the development, so every result holds for the real
      Unicode lower-casing as well as for the ASCII one used in examples.
    - A JavaScript [number] holding a finite value is a rational ([Q]);
      identifiers and zoom levels are integers ([Z]).
    - An optional field ([image?: string]) is an [option]; [None] is
      [undefined].
    - The Leaflet map is driven through commands ([MapCommand]); the effect of
      a command on the camera is a parameter. *)

From Stdlib Require Import ZArith QArith Qminmax Qround Sorted.
From stdpp Require Import base list option strings gmap.

Local Open Scope string_scope.
Local Open Scope list_scope.

(** ** JavaScript primitives *)

Module JS.

(** Truthiness of a string: every string but the empty one. *)
Definition truthy (s : string) : bool :=
  match s with
  | EmptyString => false
  | String _ _ => true
  end.

(** Truthiness of a finite number: every number but zero. *)
Definition truthyNum (q : Q) : bool := negb (Qnum q =? 0)%Z.

(** [startsWith s t]: [t] is a prefix of [s]. *)
Fixpoint startsWith (s t : string) {struct t} : bool :=
  match t, s with
  | EmptyString, _ => true
  | String _ _, EmptyString => false
  | String b t', String a s' => if Ascii.eqb a b then startsWith s' t' else false
  end.

(** [includes s t] is [s.includes(t)]: [t] occurs in [s] at some position. *)
Fixpoint includes (s t : string) : bool :=
  startsWith s t ||
  match s with
  | EmptyString => false
  | String _ s' => includes s' t
  end.

(** [a === b] on values of type [string | undefined]. *)
Definition strictEq (a b : option string) : bool := bool_decide (a = b).

(** [new Set(xs)] followed by [Array.from]: the elements of [xs] in
    insertion order, each kept at its first occurrence only. *)
Definition setAdd {A} `{EqDecision A} (seen : list A) (x : A) : list A :=
  if decide (x ∈ seen) then seen else seen ++ [x].

Definition arrayFromSet {A} `{EqDecision A} (xs : list A) : list A :=
  foldl setAdd [] xs.

(** [xs.indexOf(x)]: the first position of [x], if any. *)
Fixpoint indexOf {A} `{EqDecision A} (x : A) (xs : list A) : option nat :=
  match xs with
  | [] => None
  | y :: ys => if decide (x = y) then Some 0 else S <$> indexOf x ys
  end.

(** The ASCII fragment of [String.prototype.toLowerCase], for examples. *)
Definition lowerAscii (c : Ascii.ascii) : Ascii.ascii :=
  let n := Ascii.nat_of_ascii c in
  if (65 <=? n)%nat && (n <=? 90)%nat then Ascii.ascii_of_nat (n + 32) else c.

Fixpoint toLowerCaseAscii (s : string) : string :=
  match s with
  | EmptyString => EmptyString
  | String c s' => String (lowerAscii c) (toLowerCaseAscii s')
  end.

(** What a function body evaluates to: a value, or a thrown [TypeError]. *)
Inductive Completion (A : Type) : Type :=
| Normal (a : A)
| TypeError (msg : string).
Arguments Normal {A} a.
Arguments TypeError {A} msg.

Definition bind {A B} (c : Completion A) (k : A → Completion B) : Completion B :=
  match c with
  | Normal a => k a
  | TypeError msg => TypeError msg
  end.

(** Reading a property of a value that may be [undefined]. *)
Definition getProp {A B} (field : string) (get : A → B) (o : option A) : Completion B :=
  match o with
  | Some a => Normal (get a)
  | None => TypeError ("Cannot read properties of undefined (reading '" +:+ field +:+ "')")
  end.

End JS.

#[global] Instance completion_bind : MBind JS.Completion := λ A B k c, JS.bind c k.

(** ** Data model *)

(** [interface Location]. *)
Module Location.
Record t : Type := mk {
  id : Z;
  name : string;
  nameEn : string;
  coordinates : Q * Q;          (* [latitude, longitude] *)
  description : string;
  descriptionEn : string;
  visitDate : string;
  image : option string;
  category : option string;
  rating : option Q;
  blogUrl : option string;
  shortName : option string
}.
End Location.
Abbreviation Location := Location.t.

(** [interface MapStyle]. *)
Module MapStyle.
Record t : Type := mk {
  name : string;
  url : string;
  attribution : string
}.
End MapStyle.
Abbreviation MapStyle := MapStyle.t.

Inductive Language : Type := zh | en.

(** A [Location[]] is an object: React compares effect dependencies with
    [Object.is], so two arrays with the same items are still different
    dependencies.  [CallerArray n] is an array the caller allocated,
    [OwnArray n] one the component allocated. *)
Inductive ArrayRef : Type :=
| CallerArray (n : nat)
| OwnArray (n : nat).

#[global] Instance ArrayRef_eq_dec : EqDecision ArrayRef.
Proof. solve_decision. Defined.

Record LocationArray : Type := mkArray {
  ref : ArrayRef;
  items : list Location
}.

(** The array a caller passes as [locations] is one the caller allocated. *)
Record CallerLocations : Type := mkLocations {
  arrayId : nat;
  elements : list Location
}.

Definition asArray (a : CallerLocations) : LocationArray :=
  mkArray (CallerArray (arrayId a)) (elements a).

(** [interface TravelMapProps]; every field but [locations] may be absent. *)
Module Props.
Record t : Type := mk {
  locations : CallerLocations;
  defaultZoom : option Z;
  defaultCenter : option (Q * Q);
  language : option Language;
  enableSearch : option bool;
  enableFilter : option bool;
  mapStyles : option (list MapStyle)
}.
End Props.
Abbreviation TravelMapProps := Props.t.

(** The double-quote character, for the attribute values inside the
    attribution markup. *)
Definition dq : string := String (Ascii.ascii_of_nat 34) EmptyString.

Definition osmCredit : string :=
  "&copy; <a href=" +:+ dq +:+ "https://www.openstreetmap.org/copyright" +:+ dq
  +:+ ">OpenStreetMap</a> contributors".

Definition defaultMapStyles : list MapStyle :=
  [ MapStyle.mk "Standard"
      "https://{s}.tile.openstreetmap.org/{z}/{x}/{y}.png"
      osmCredit;
    MapStyle.mk "Dark"
      "https://{s}.basemaps.cartocdn.com/dark_all/{z}/{x}/{y}{r}.png"
      (osmCredit +:+ " &copy; <a href=" +:+ dq +:+ "https://carto.com/attributions"
       +:+ dq +:+ ">CARTO</a>");
    MapStyle.mk "Terrain"
      "https://server.arcgisonline.com/ArcGIS/rest/services/World_Topo_Map/MapServer/tile/{z}/{y}/{x}"
      "Tiles &copy; Esri &mdash; Esri, DeLorme, NAVTEQ, TomTom, Intermap, iPC, USGS, FAO, NPS, NRCAN, GeoBase, Kadaster NL, Ordnance Survey, Esri Japan, METI, Esri China (Hong Kong), and the GIS User Community";
    MapStyle.mk "Satellite"
      "https://server.arcgisonline.com/ArcGIS/rest/services/World_Imagery/MapServer/tile/{z}/{y}/{x}"
      "Tiles &copy; Esri &mdash; Source: Esri, i-cubed, USDA, USGS, AEX, GeoEye, Getmapping, Aerogrid, IGN, IGP, UPR-EGP, and the GIS User Community" ].

(** The destructuring defaults of the component's parameter list. *)
Definition defaultZoomOf (p : TravelMapProps) : Z := default 5%Z (Props.defaultZoom p).
Definition defaultCenterOf (p : TravelMapProps) : Q * Q :=
  default (35 # 1, 105 # 1) (Props.defaultCenter p).
Definition languageOf (p : TravelMapProps) : Language := default zh (Props.language p).
Definition enableSearchOf (p : TravelMapProps) : bool := default true (Props.enableSearch p).
Definition enableFilterOf (p : TravelMapProps) : bool := default true (Props.enableFilter p).
Definition mapStylesOf (p : TravelMapProps) : list MapStyle :=
  default defaultMapStyles (Props.mapStyles p).

(** [categoryColors]. *)
Definition categoryColors : gmap string string :=
  list_to_map
    [ ("居住", "#4CAF50"); ("旅行", "#2196F3"); ("商务", "#FF9800");
      ("路过", "#9C27B0"); ("default", "#F44336") ].

(** ** The Leaflet interface the component uses *)

(** [L.latLng(lat, lng)]. *)
Record LatLng : Type := latLng { lat : Q; lng : Q }.

(** [L.LatLngBounds]: the south-west and north-east corners. *)
Record LatLngBounds : Type := mkBounds { southWest : LatLng; northEast : LatLng }.

(** [bounds.extend(p)]: the first point makes both corners, a later one
    pushes each corner outwards with [Math.min] and [Math.max]. *)
Definition extend (b : option LatLngBounds) (p : LatLng) : option LatLngBounds :=
  match b with
  | None => Some (mkBounds p p)
  | Some (mkBounds sw ne) =>
      Some (mkBounds (latLng (Qmin (lat p) (lat sw)) (Qmin (lng p) (lng sw)))
                     (latLng (Qmax (lat p) (lat ne)) (Qmax (lng p) (lng ne))))
  end.

(** [L.latLngBounds(points)]: extend an empty bounds by every point in turn;
    without points the bounds stay without corners. *)
Definition latLngBounds (points : list LatLng) : option LatLngBounds :=
  foldl extend None points.

(** What the component asks of the map. *)
Inductive MapCommand : Type :=
| FitBounds (bounds : option LatLngBounds) (padding : Z * Z).

(** [L.divIcon(options)]. *)
Record DivIcon : Type := divIcon {
  className : string;
  html : string;
  iconSize : Z * Z;
  iconAnchor : Z * Z
}.

(** The camera of the map. *)
Record Camera : Type := mkCamera { center : Q * Q; zoom : Z }.

(** ** Pure parts of the component *)

(** [a || b] on values of type [string | undefined]. *)
Definition orElse (a b : option string) : option string :=
  match a with
  | Some s => if JS.truthy s then a else b
  | None => b
  end.

(** A [string | undefined] inside a template literal. *)
Definition interpolate (a : option string) : string := default "undefined" a.

(** The property names an object literal inherits from [Object.prototype]. *)
Definition objectPrototypeKeys : list string :=
  [ "constructor"; "__proto__"; "hasOwnProperty"; "isPrototypeOf";
    "propertyIsEnumerable"; "toLocaleString"; "toString"; "valueOf";
    "__defineGetter__"; "__defineSetter__"; "__lookupGetter__";
    "__lookupSetter__" ].

(** The value inherited under such a name, as a template literal prints it:
    [constructor] is the function [Object], [__proto__] is
    [Object.prototype] itself, the others are the built-in methods of their
    name.  All of them are objects, hence truthy.  The text of a built-in
    function is written as V8 prints it. *)
Definition inheritedText (key : string) : option string :=
  if decide (key = "constructor") then Some "function Object() { [native code] }"
  else if decide (key = "__proto__") then Some "[object Object]"
  else if decide (key ∈ objectPrototypeKeys)
       then Some ("function " +:+ key +:+ "() { [native code] }")
       else None.

(** [categoryColors[key]]: the colour under an own key of the table,
    otherwise what the table inherits under that name, otherwise
    [undefined]. *)
Definition lookupColor (key : string) : option string :=
  match categoryColors !! key with
  | Some color => Some color
  | None => inheritedText key
  end.

(** [createIcon(category = 'default')]. *)
Definition createIcon (category : option string) : DivIcon :=
  let category := default "default" category in
  let color := orElse (lookupColor category) (lookupColor "default") in
  divIcon "custom-div-icon"
    ("<div style=" +:+ dq +:+ "background-color: " +:+ interpolate color
     +:+ "; width: 12px; height: 12px; border-radius: 50%; border: 2px solid #FFF;"
     +:+ dq +:+ "></div>")
    (16, 16)%Z (8, 8)%Z.

Definition getLocationIcon (location : Location) : DivIcon :=
  createIcon (Location.category location).

(** One [<span>★</span>] of the rating. *)
Record Star : Type := mkStar { starKey : nat; starColor : string }.

Definition gold : string := "#FFD700".
Definition grey : string := "#e4e5e9".

(** [index < rating] between an array index and a number: the negation of
    [rating <= index], the order on finite numbers being total. *)
Definition indexBelow (index : nat) (rating : Q) : bool :=
  negb (Qle_bool rating (inject_Z (Z.of_nat index))).

(** [renderRating(rating = 0)]: [Array(5).fill(0).map((_, index) => ...)]. *)
Definition renderRating (rating : option Q) : list Star :=
  let rating := default (0 # 1) rating in
  imap (λ index _, mkStar index (if indexBelow index rating then gold else grey))
       (replicate 5 0%Z).

Definition filledStars (stars : list Star) : nat :=
  length (List.filter (λ s, String.eqb (starColor s) gold) stars).

(** The category choices of the filter control:
    [Array.from(new Set(locations.map(loc => loc.category))).filter(Boolean)].
    [filter(Boolean)] drops [undefined] and the empty string, so what is left
    are strings. *)
Definition isCategory (c : option string) : option string :=
  match c with
  | Some s => if JS.truthy s then Some s else None
  | None => None
  end.

Definition categoryOptions (locations : list Location) : list string :=
  omap isCategory (JS.arrayFromSet (Location.category <$> locations)).

(** The body of the effect of [FitBoundsToLocations]. *)
Definition FitBoundsToLocations (locations : list Location) : list MapCommand :=
  if bool_decide (0 < length locations)%nat then
    let bounds :=
      latLngBounds ((λ loc, latLng (Location.coordinates loc).1 (Location.coordinates loc).2)
                      <$> locations) in
    [FitBounds bounds (50, 50)%Z]
  else [].

(** ** What the component renders *)

Record InputView : Type := mkInput { placeholder : string; inputValue : string }.

Record OptionView : Type := mkOption {
  optionKey : option string;
  optionValue : string;
  optionLabel : string
}.

Record SelectView : Type := mkSelect { selectValue : string; options : list OptionView }.

Record ImageView : Type := mkImage { src : string; alt : string }.

Record LinkView : Type := mkLink { href : string; linkText : string }.

(** [{location.rating && <div>...</div>}]: nothing for [undefined], the
    number itself for a falsy number, the stars otherwise. *)
Inductive RatingBlock : Type :=
| NoRating
| RatingNumber (q : Q)
| RatingStars (stars : list Star).

Record PopupView : Type := mkPopup {
  heading : string;
  thumbnail : option ImageView;
  paragraph : string;
  visitDateLine : string;
  categoryLine : option string;
  ratingLine : RatingBlock;
  blogLink : option LinkView
}.

Record MarkerView : Type := mkMarker {
  markerKey : Z;
  position : Q * Q;
  icon : DivIcon;
  popup : PopupView
}.

Record View : Type := mkView {
  controlsShown : bool;
  searchInput : option InputView;
  categorySelect : option SelectView;
  styleSelect : SelectView;
  containerCenter : Q * Q;
  containerZoom : Z;
  tileUrl : string;
  tileAttribution : string;
  fitLocations : LocationArray;
  markers : list MarkerView
}.

(** A marker without the texts of its popup: key, position and icon. *)
Definition markerPin (m : MarkerView) : Z * (Q * Q) * DivIcon :=
  (markerKey m, position m, icon m).

(** [x && element] for an optional string [x]. *)
Definition whenTruthy {A} (x : option string) (element : string → A) : option A :=
  match x with
  | Some s => if JS.truthy s then Some (element s) else None
  | None => None
  end.

Definition renderPopup (language : Language) (location : Location) : PopupView :=
  let title := match language with
               | zh => Location.name location
               | en => Location.nameEn location
               end in
  mkPopup title
    (whenTruthy (Location.image location) (λ image, mkImage image title))
    (match language with
     | zh => Location.description location
     | en => Location.descriptionEn location
     end)
    (Location.visitDate location)
    (whenTruthy (Location.category location) (λ category, category))
    (match Location.rating location with
     | None => NoRating
     | Some r => if JS.truthyNum r then RatingStars (renderRating (Some r))
                 else RatingNumber r
     end)
    (whenTruthy (Location.blogUrl location)
       (λ blogUrl, mkLink blogUrl (match language with
                                   | zh => "阅读更多"
                                   | en => "Read More"
                                   end))).

Definition renderMarker (language : Language) (location : Location) : MarkerView :=
  mkMarker (Location.id location) (Location.coordinates location)
    (getLocationIcon location) (renderPopup language location).

Definition styleLabel (language : Language) (style : MapStyle) : string :=
  match language with
  | zh =>
      if String.eqb (MapStyle.name style) "Standard" then "标准"
      else if String.eqb (MapStyle.name style) "Dark" then "暗色"
      else if String.eqb (MapStyle.name style) "Terrain" then "地形图"
      else if String.eqb (MapStyle.name style) "Satellite" then "卫星图"
      else MapStyle.name style
  | en => MapStyle.name style
  end.

(** ** View state *)

Record State : Type := mkState {
  selectedLocation : option Z;
  currentMapStyle : option MapStyle;     (* [undefined] when [mapStyles] is empty *)
  searchTerm : string;
  filterCategory : option string;        (* [None] is [null] *)
  filteredLocations : LocationArray
}.

(** The dependencies of the filter effect: [[locations, searchTerm,
    filterCategory]]; the array counts by its identity. *)
Definition FilterDeps : Type := ArrayRef * string * option string.

(** A mounted component: its props, its state, the dependency lists React
    keeps from the last run of each effect ([None] before the first run) and
    the next free identity for an array the component allocates. *)
Record Config : Type := mkConfig {
  props : TravelMapProps;
  state : State;
  filterDeps : option FilterDeps;
  fitDeps : option ArrayRef;
  nextRef : nat
}.

Inductive Event : Type :=
| SearchChange (value : string)          (* [onChange] of the search box *)
| FilterChange (value : string)          (* [onChange] of the category select *)
| StyleChange (value : string)           (* [onChange] of the style select *)
| MarkerClick (id : Z)                   (* [click] on a marker *)
| PropsChange (p : TravelMapProps).      (* the parent renders with new props *)

Definition withState (c : Config) (s : State) : Config :=
  mkConfig (props c) s (filterDeps c) (fitDeps c) (nextRef c).

Definition setSelectedLocation (v : option Z) (s : State) : State :=
  mkState v (currentMapStyle s) (searchTerm s) (filterCategory s) (filteredLocations s).
Definition setCurrentMapStyle (v : option MapStyle) (s : State) : State :=
  mkState (selectedLocation s) v (searchTerm s) (filterCategory s) (filteredLocations s).
Definition setSearchTerm (v : string) (s : State) : State :=
  mkState (selectedLocation s) (currentMapStyle s) v (filterCategory s) (filteredLocations s).
Definition setFilterCategory (v : option string) (s : State) : State :=
  mkState (selectedLocation s) (currentMapStyle s) (searchTerm s) v (filteredLocations s).
Definition setFilteredLocations (v : LocationArray) (s : State) : State :=
  mkState (selectedLocation s) (currentMapStyle s) (searchTerm s) (filterCategory s) v.

(** The [useState] initial values. *)
Definition initialState (p : TravelMapProps) : State :=
  mkState None (mapStylesOf p !! 0%nat) "" None (asArray (Props.locations p)).

Definition initialConfig (p : TravelMapProps) : Config :=
  mkConfig p (initialState p) None None 0.

(** The event handlers. *)
Definition handle (c : Config) (e : Event) : Config :=
  match e with
  | SearchChange value => withState c (setSearchTerm value (state c))
  | FilterChange value =>
      withState c (setFilterCategory (if JS.truthy value then Some value else None) (state c))
  | StyleChange value =>
      match List.find (λ style, String.eqb (MapStyle.name style) value)
                      (mapStylesOf (props c)) with
      | Some selected => withState c (setCurrentMapStyle (Some selected) (state c))
      | None => c
      end
  | MarkerClick id => withState c (setSelectedLocation (Some id) (state c))
  | PropsChange p => mkConfig p (state c) (filterDeps c) (fitDeps c) (nextRef c)
  end.

(** The camera follows the commands; [fitBoundsCamera] is Leaflet's
    [map.fitBounds]. *)
Section Camera.
Variable fitBoundsCamera : option LatLngBounds → Z * Z → Camera → Camera.

Definition applyCommand (cam : Camera) (cmd : MapCommand) : Camera :=
  match cmd with
  | FitBounds bounds padding => fitBoundsCamera bounds padding cam
  end.

Definition applyCommands (cmds : list MapCommand) (cam : Camera) : Camera :=
  foldl applyCommand cam cmds.
End Camera.

(** The element tree of one render.  The style select reads
    [currentMapStyle.name] and the tile layer reads [.url] and
    [.attribution]: with [currentMapStyle] undefined the render throws. *)
Definition render (p : TravelMapProps) (s : State) : JS.Completion View :=
  let language := languageOf p in
  let enableSearch := enableSearchOf p in
  let enableFilter := enableFilterOf p in
  let shown := enableSearch || enableFilter in
  let search :=
    if shown && enableSearch then
      Some (mkInput (match language with
                     | zh => "搜索地点..."
                     | en => "Search locations..."
                     end) (searchTerm s))
    else None in
  let filter :=
    if shown && enableFilter then
      Some (mkSelect (default "" (filterCategory s))
              (mkOption None "" (match language with
                                 | zh => "全部分类"
                                 | en => "All Categories"
                                 end)
               :: ((λ category, mkOption (Some category) category category)
                     <$> categoryOptions (elements (Props.locations p)))))
    else None in
  styleName ← JS.getProp "name" MapStyle.name (currentMapStyle s);
  let styles :=
    mkSelect styleName
      ((λ style, mkOption (Some (MapStyle.name style)) (MapStyle.name style)
                   (styleLabel language style)) <$> mapStylesOf p) in
  url ← JS.getProp "url" MapStyle.url (currentMapStyle s);
  attribution ← JS.getProp "attribution" MapStyle.attribution (currentMapStyle s);
  JS.Normal
    (mkView shown search filter styles (defaultCenterOf p) (defaultZoomOf p)
       url attribution (filteredLocations s)
       (renderMarker language <$> items (filteredLocations s))).

(** ** The filter effect and the component as a state machine *)

Section Component.

(** [String.prototype.toLowerCase]. *)
Variable toLowerCase : string → string.

(** The callback of the search filter. *)
Definition matchesSearch (term : string) (loc : Location) : bool :=
  JS.includes (toLowerCase (Location.name loc)) term
  || JS.includes (toLowerCase (Location.nameEn loc)) term
  || JS.includes (toLowerCase (Location.description loc)) term
  || JS.includes (toLowerCase (Location.descriptionEn loc)) term.

(** [if (searchTerm) { ... filtered.filter(...) }]. *)
Definition applySearch (searchTerm : string) (filtered : list Location) : list Location :=
  if JS.truthy searchTerm then
    let term := toLowerCase searchTerm in
    List.filter (matchesSearch term) filtered
  else filtered.

(** [if (filterCategory) { ... filtered.filter(...) }]; [null] and the
    empty string are falsy. *)
Definition applyCategory (filterCategory : option string) (filtered : list Location)
  : list Location :=
  if from_option JS.truthy false filterCategory then
    List.filter (λ loc, JS.strictEq (Location.category loc) filterCategory) filtered
  else filtered.

(** The value the filter effect passes to [setFilteredLocations]. *)
Definition filterLocations (locations : list Location) (searchTerm : string)
    (filterCategory : option string) : list Location :=
  let filtered := locations in
  let filtered := applySearch searchTerm filtered in
  let filtered := applyCategory filterCategory filtered in
  filtered.

(** The effect of [FitBoundsToLocations], with dependencies
    [[locations, map]]: it runs when the array it is given is another
    object than at its last run. *)
Definition runFitEffect (c : Config) : Config * list MapCommand :=
  let shown := filteredLocations (state c) in
  if decide (fitDeps c = Some (ref shown)) then (c, [])
  else (mkConfig (props c) (state c) (filterDeps c) (Some (ref shown)) (nextRef c),
        FitBoundsToLocations (items shown)).

(** The filter effect: when a dependency changed it stores a new array. *)
Definition runFilterEffect (c : Config) : Config * bool :=
  let s := state c in
  let deps : FilterDeps :=
    (ref (asArray (Props.locations (props c))), searchTerm s, filterCategory s) in
  if decide (filterDeps c = Some deps) then (c, false)
  else
    let filtered :=
      mkArray (OwnArray (nextRef c))
        (filterLocations (elements (Props.locations (props c)))
           (searchTerm s) (filterCategory s)) in
    (mkConfig (props c) (setFilteredLocations filtered s) (Some deps) (fitDeps c)
       (S (nextRef c)),
     true).

(** One commit: render; the effect of the child, then the effect of the
    component; when the latter stored a new array, render again and run
    the effect of the child on it.  The second render leaves the
    dependencies of the filter effect as they are, so nothing is left to
    run after it. *)
Definition commit (c : Config) : JS.Completion (Config * list MapCommand) :=
  _ ← render (props c) (state c);
  let (c1, cmds1) := runFitEffect c in
  let (c2, stored) := runFilterEffect c1 in
  if stored then
    _ ← render (props c2) (state c2);
    let (c3, cmds2) := runFitEffect c2 in
    JS.Normal (c3, cmds1 ++ cmds2)
  else JS.Normal (c2, cmds1).

(** The effects of one commit alone, as they run when no render throws. *)
Definition effects (c : Config) : Config * list MapCommand :=
  let (c1, cmds1) := runFitEffect c in
  let (c2, stored) := runFilterEffect c1 in
  if stored then let (c3, cmds2) := runFitEffect c2 in (c3, cmds1 ++ cmds2)
  else (c2, cmds1).

Definition mount (p : TravelMapProps) : JS.Completion (Config * list MapCommand) :=
  commit (initialConfig p).

Definition step (c : Config) (e : Event) : JS.Completion (Config * list MapCommand) :=
  commit (handle c e).

Fixpoint runFrom (c : Config) (events : list Event)
  : JS.Completion (Config * list MapCommand) :=
  match events with
  | [] => JS.Normal (c, [])
  | e :: events =>
      r ← step c e;
      r' ← runFrom r.1 events;
      JS.Normal (r'.1, r.2 ++ r'.2)
  end.

Definition run (p : TravelMapProps) (events : list Event)
  : JS.Completion (Config * list MapCommand) :=
  r ← mount p;
  r' ← runFrom r.1 events;
  JS.Normal (r'.1, r.2 ++ r'.2).

(** The caller does not change an array in place: the same object has the
    same items. *)
Definition Coherent (c : Config) (e : Event) : Prop :=
  match e with
  | PropsChange p =>
      arrayId (Props.locations p) = arrayId (Props.locations (props c)) →
      elements (Props.locations p) = elements (Props.locations (props c))
  | _ => True
  end.

Inductive Reachable : Config → Prop :=
| reach_mount p c cmds :
    mount p = JS.Normal (c, cmds) → Reachable c
| reach_step c e c' cmds :
    Reachable c → Coherent c e → step c e = JS.Normal (c', cmds) → Reachable c'.

(** The dependency list of the filter effect in a configuration. *)
Definition depsOf (c : Config) : FilterDeps :=
  (ref (asArray (Props.locations (props c))), searchTerm (state c),
   filterCategory (state c)).

(** A configuration in which no effect is left to run: both dependency
    lists are those of the last render, the stored array holds the
    filtered locations and is older than the next allocation, the selected
    category is not the empty string and a style is selected. *)
Definition Settled (c : Config) : Prop :=
  filterDeps c = Some (depsOf c)
  ∧ fitDeps c = Some (ref (filteredLocations (state c)))
  ∧ items (filteredLocations (state c))
    = filterLocations (elements (Props.locations (props c)))
        (searchTerm (state c)) (filterCategory (state c))
  ∧ (∀ n, ref (filteredLocations (state c)) = OwnArray n → (n < nextRef c)%nat)
  ∧ filterCategory (state c) ≠ Some ""
  ∧ is_Some (currentMapStyle (state c)).

(** *** The filters in the words of the specification *)

(** [t] occurs in [s]. *)
Definition Substring (t s : string) : Prop := ∃ pre post, s = pre +:+ t +:+ post.

(** The text rule: the term is empty, or its lower-case form occurs in the
    lower-case form of one of the four fields. *)
Definition TextMatches (t : string) (l : Location) : Prop :=
  t = "" ∨
  ∃ field, field ∈ [Location.name l; Location.nameEn l;
                    Location.description l; Location.descriptionEn l]
           ∧ Substring (toLowerCase t) (toLowerCase field).

(** The category rule: nothing is selected, or the category of the
    location is the selected one. *)
Definition CategoryMatches (c : option string) (l : Location) : Prop :=
  c = None ∨ Location.category l = c.

End Component.

(** [Selects P l r]: [r] is exactly the sublist of [l] of the elements that
    satisfy [P], in the order and with the multiplicity they have in [l]. *)
Inductive Selects {A : Type} (P : A → Prop) : list A → list A → Prop :=
| Selects_nil : Selects P [] []
| Selects_keep x l r : P x → Selects P l r → Selects P (x :: l) (x :: r)
| Selects_drop x l r : ¬ P x → Selects P l r → Selects P (x :: l) r.

(** *** Bounding boxes *)

(** The point lies in the box. *)
Definition Contains (b : LatLngBounds) (p : LatLng) : Prop :=
  (lat (southWest b) <= lat p)%Q ∧ (lat p <= lat (northEast b))%Q
  ∧ (lng (southWest b) <= lng p)%Q ∧ (lng p <= lng (northEast b))%Q.

(** The box [inner] lies in the box [outer]. *)
Definition Encloses (outer inner : LatLngBounds) : Prop :=
  (lat (southWest outer) <= lat (southWest inner))%Q
  ∧ (lng (southWest outer) <= lng (southWest inner))%Q
  ∧ (lat (northEast inner) <= lat (northEast outer))%Q
  ∧ (lng (northEast inner) <= lng (northEast outer))%Q.

Definition coordinatesOf (l : Location) : LatLng :=
  latLng (Location.coordinates l).1 (Location.coordinates l).2.

(** [b] is the smallest box with the coordinates of every location of [V]. *)
Definition SmallestBox (V : list Location) (b : LatLngBounds) : Prop :=
  (∀ l, l ∈ V → Contains b (coordinatesOf l))
  ∧ (∀ b', (∀ l, l ∈ V → Contains b' (coordinatesOf l)) → Encloses b' b).

(** The commands frame [V]: none for an empty [V], otherwise one
    [fitBounds] on the smallest box around [V] with a padding of 50 pixels. *)
Definition Frames (V : list Location) (cmds : list MapCommand) : Prop :=
  match V with
  | [] => cmds = []
  | _ :: _ => ∃ b, cmds = [FitBounds (Some b) (50, 50)%Z] ∧ SmallestBox V b
  end.

(** *** Order of first occurrence *)

(** [a] and [b] occur in [xs], and the first occurrence of [a] is before
    that of [b]. *)
Definition SeenBefore {A} `{EqDecision A} (xs : list A) (a b : A) : Prop :=
  ∃ m n, JS.indexOf a xs = Some m ∧ JS.indexOf b xs = Some n ∧ (m < n)%nat.

(** The same for two category names among the category fields. *)
Definition FirstSeenBefore (cats : list (option string)) (a b : string) : Prop :=
  SeenBefore cats (Some a) (Some b).

(** *** Props up to the language, and up to the two flags *)

Definition eraseLanguage (p : TravelMapProps) : TravelMapProps :=
  Props.mk (Props.locations p) (Props.defaultZoom p) (Props.defaultCenter p)
    None (Props.enableSearch p) (Props.enableFilter p) (Props.mapStyles p).

Definition eraseLanguageEvent (e : Event) : Event :=
  match e with
  | PropsChange p => PropsChange (eraseLanguage p)
  | _ => e
  end.

Definition eraseFlags (p : TravelMapProps) : TravelMapProps :=
  Props.mk (Props.locations p) (Props.defaultZoom p) (Props.defaultCenter p)
    (Props.language p) None None (Props.mapStyles p).

(** Two configurations that differ in the language only. *)
Definition SameButLanguage (c1 c2 : Config) : Prop :=
  eraseLanguage (props c1) = eraseLanguage (props c2)
  ∧ state c1 = state c2
  ∧ filterDeps c1 = filterDeps c2
  ∧ fitDeps c1 = fitDeps c2
  ∧ nextRef c1 = nextRef c2.

(** The markers of the render of a configuration, without popup texts. *)
Definition pinsOf (c : Config) : JS.Completion (list (Z * (Q * Q) * DivIcon)) :=
  v ← render (props c) (state c);
  JS.Normal (markerPin <$> markers v).

(** Two runs end alike: with the same error, or with the same state, the
    same commands to the map and the same markers. *)
Definition SameOutcome (r1 r2 : JS.Completion (Config * list MapCommand)) : Prop :=
  match r1, r2 with
  | JS.Normal (c1, cmds1), JS.Normal (c2, cmds2) =>
      state c1 = state c2 ∧ cmds1 = cmds2 ∧ pinsOf c1 = pinsOf c2
  | JS.TypeError m1, JS.TypeError m2 => m1 = m2
  | _, _ => False
  end.

(** Two runs that, so far, differ in the language only. *)
Definition AlikeButLanguage (r1 r2 : JS.Completion (Config * list MapCommand)) : Prop :=
  match r1, r2 with
  | JS.Normal (c1, cmds1), JS.Normal (c2, cmds2) => SameButLanguage c1 c2 ∧ cmds1 = cmds2
  | JS.TypeError m1, JS.TypeError m2 => m1 = m2
  | _, _ => False
  end.

(** Example data. *)
Definition shanghai : Location :=
  Location.mk 1 "上海" "Shanghai" (312304 # 10000, 1214737 # 10000)
    "我的故乡，一个充满活力的国际大都市。"
    "My hometown, a vibrant international metropolis."
    "2022-01-01" (Some "/images/shanghai.jpg") (Some "居住") (Some (5 # 1)) None None.

Definition beijing : Location :=
  Location.mk 2 "北京" "Beijing" (399042 # 10000, 1164074 # 10000)
    "首都" "The capital." "2023-05-01" None (Some "旅行") (Some (7 # 1))
    (Some "https://example.org/beijing") None.

(** A place rated zero. *)
Definition zeroRated : Location :=
  Location.mk 3 "南京" "Nanjing" (320603 # 10000, 1187969 # 10000)
    "路过" "Passing through." "2024-03-01" None (Some "路过") (Some (0 # 1)) None None.

Definition exampleProps : TravelMapProps :=
  Props.mk (mkLocations 0 [shanghai; beijing]) None None None None None None.

Definition englishProps : TravelMapProps :=
  Props.mk (mkLocations 0 [shanghai; beijing]) None None (Some en) None None None.

Definition hiddenProps : TravelMapProps :=
  Props.mk (mkLocations 0 [shanghai; beijing]) None None None (Some false) (Some false)
    None.

Definition exampleEvents : list Event := [SearchChange "BEI"; FilterChange "旅行"].

(** The configuration the example reaches: mounted, then searched for
    "BEI", then filtered by the category of journeys. *)
Definition exampleConfig : Config :=
  Eval vm_compute in
    match run JS.toLowerCaseAscii exampleProps exampleEvents with
    | JS.Normal (c, _) => c
    | JS.TypeError _ => initialConfig exampleProps
    end.

(** A camera for the example, and a stand-in for [map.fitBounds] that moves
    the camera to the south-west corner of the box. *)
Definition exampleCamera : Camera := mkCamera (35 # 1, 105 # 1) 5.

Definition exampleFit (bounds : option LatLngBounds) (padding : Z * Z) (cam : Camera)
  : Camera :=
  match bounds with
  | Some box => mkCamera (lat (southWest box), lng (southWest box)) (zoom cam)
  | None => cam
  end.

(** *** Further notions *)

(** A [fitBounds] on a box with corners, with the padding of the effect. *)
Definition ValidFit (cmd : MapCommand) : Prop :=
  ∃ b, cmd = FitBounds (Some b) (50, 50)%Z.

Definition isPropsChange (e : Event) : bool :=
  match e with
  | PropsChange _ => true
  | _ => false
  end.

(** Props with another array of locations and an empty list of styles. *)
Definition replacedProps : TravelMapProps :=
  Props.mk (mkLocations 1 [shanghai]) None None None None None (Some []).

(** * Properties *)

(** ** Strings *)

Lemma truthy_spec s : JS.truthy s = true ↔ s ≠ "".
Proof. destruct s; simpl; split; intros; congruence. Qed.

Lemma truthy_false s : JS.truthy s = false ↔ s = "".
Proof. destruct s; simpl; split; intros; congruence. Qed.

Lemma startsWith_spec s t : JS.startsWith s t = true ↔ ∃ post, s = t +:+ post.
Proof.
  revert s. induction t as [|b t IH]; intros s; simpl.
  - split; [intros _; by exists s | done].
  - destruct s as [|a s].
    + split; [done | intros [post Hpost]; discriminate].
    + destruct (Ascii.eqb_spec a b) as [->|Hab].
      * rewrite IH. split; intros [post Hpost]; exists post.
        -- by rewrite Hpost.
        -- by injection Hpost.
      * split; [done | intros [post Hpost]; injection Hpost; congruence].
Qed.

Lemma includes_spec s t : JS.includes s t = true ↔ Substring t s.
Proof.
  unfold Substring. induction s as [|a s IH]; simpl.
  - rewrite orb_false_r, startsWith_spec. split.
    + intros [post Hpost]. by exists "", post.
    + intros [pre [post Hs]]. destruct pre; simpl in Hs; [by exists post | done].
  - rewrite orb_true_iff, startsWith_spec, IH. split.
    + intros [[post Hpost] | [pre [post Hs]]].
      * by exists "", post.
      * exists (String a pre), post. simpl. by rewrite Hs.
    + intros [pre [post Hs]]. destruct pre as [|a' pre]; simpl in Hs.
      * left. by exists post.
      * right. injection Hs as _ Hs. by exists pre, post.
Qed.

(** ** Sublists selected by a predicate *)

Section Selects.
Context {A : Type}.
Implicit Types (P Q : A → Prop) (l r : list A).

Lemma Selects_filter P (f : A → bool) l :
  (∀ x, f x = true ↔ P x) → Selects P l (List.filter f l).
Proof.
  intros Hf. induction l as [|x l IH]; simpl; [constructor|].
  destruct (f x) eqn:Hx.
  - apply Selects_keep; [by apply Hf | done].
  - apply Selects_drop; [|done]. rewrite <- Hf. congruence.
Qed.

Lemma Selects_all P l : (∀ x, P x) → Selects P l l.
Proof. intros HP. induction l; constructor; auto. Qed.

Lemma Selects_ext P Q l r : (∀ x, P x ↔ Q x) → Selects P l r → Selects Q l r.
Proof.
  intros HPQ. induction 1; [constructor | apply Selects_keep | apply Selects_drop];
    rewrite <- ?HPQ; auto.
Qed.

Lemma Selects_compose P Q l m r :
  Selects P l m → Selects Q m r → Selects (λ x, P x ∧ Q x) l r.
Proof.
  intros Hlm. revert r. induction Hlm as [|x l m Hx _ IH|x l m Hx _ IH]; intros r Hmr.
  - inversion Hmr; subst. constructor.
  - inversion Hmr; subst.
    + apply Selects_keep; auto.
    + apply Selects_drop; [tauto | auto].
  - apply Selects_drop; [tauto | auto].
Qed.

Lemma Selects_functional P l r r' : Selects P l r → Selects P l r' → r = r'.
Proof.
  intros H. revert r'. induction H; intros r' H'; inversion H'; subst;
    try done; f_equal; auto.
Qed.

Lemma Selects_elem_of P l r x : Selects P l r → x ∈ r ↔ x ∈ l ∧ P x.
Proof.
  induction 1 as [|y l r Hy _ IH|y l r Hy _ IH].
  - split; [intros H | intros [H _]]; by apply elem_of_nil in H.
  - rewrite !elem_of_cons, IH. split; [|tauto].
    intros [->|[? ?]]; auto.
  - rewrite elem_of_cons, IH. split; [tauto|].
    intros [[->|?] ?]; tauto.
Qed.
End Selects.

(** ** The filters *)

Section Filters.
Variable toLowerCase : string → string.

Lemma matchesSearch_spec t l :
  matchesSearch toLowerCase (toLowerCase t) l = true
  ↔ ∃ field, field ∈ [Location.name l; Location.nameEn l;
                      Location.description l; Location.descriptionEn l]
             ∧ Substring (toLowerCase t) (toLowerCase field).
Proof.
  unfold matchesSearch. rewrite !orb_true_iff, !includes_spec. split.
  - intros [[[H|H]|H]|H]; eexists; (split; [|exact H]); set_solver.
  - intros [field [Hin H]]. rewrite !elem_of_cons in Hin.
    destruct Hin as [->|[->|[->|[->|Hin]]]]; [tauto..|by apply elem_of_nil in Hin].
Qed.

Lemma applySearch_Selects t L :
  Selects (TextMatches toLowerCase t) L (applySearch toLowerCase t L).
Proof.
  unfold applySearch. destruct (JS.truthy t) eqn:Ht.
  - apply truthy_spec in Ht. apply Selects_filter. intros l.
    rewrite matchesSearch_spec. unfold TextMatches. tauto.
  - apply truthy_false in Ht. apply Selects_all. intros l. by left.
Qed.

Lemma applyCategory_Selects c L :
  c ≠ Some "" → Selects (CategoryMatches c) L (applyCategory c L).
Proof.
  intros Hc. unfold applyCategory. destruct c as [s|]; simpl.
  - destruct (JS.truthy s) eqn:Hs.
    + apply Selects_filter. intros l. unfold JS.strictEq, CategoryMatches.
      rewrite bool_decide_eq_true. split; [auto | intros [?|?]; congruence].
    + apply truthy_false in Hs. congruence.
  - apply Selects_all. intros l. by left.
Qed.

Lemma filterLocations_Selects L t c :
  c ≠ Some "" →
  Selects (λ l, TextMatches toLowerCase t l ∧ CategoryMatches c l) L
    (filterLocations toLowerCase L t c).
Proof.
  intros Hc. unfold filterLocations.
  eapply Selects_compose; [apply applySearch_Selects | by apply applyCategory_Selects].
Qed.

(** C1.  The text filter: for every list of locations [L] and every search
    term [t], the search stage of the filter keeps exactly the sublist of
    the locations for which [t] is empty or the lower-case [t] occurs in
    the lower-case form of [name], [nameEn], [description] or
    [descriptionEn]; with no category selected this is the whole filtered
    result. *)
Theorem text_filter_exact (L : list Location) (t : string) :
  Selects (TextMatches toLowerCase t) L (applySearch toLowerCase t L)
  ∧ filterLocations toLowerCase L t None = applySearch toLowerCase t L.
Proof. split; [apply applySearch_Selects | reflexivity]. Qed.

End Filters.

(** The filter on the example data, with the ASCII lower-casing. *)
Example search_by_name :
  Location.id <$> filterLocations JS.toLowerCaseAscii [shanghai; beijing] "上海" None
  = [1%Z].
Proof. reflexivity. Qed.

Example search_ignores_case :
  Location.id <$> filterLocations JS.toLowerCaseAscii [shanghai; beijing] "CAPITAL" None
  = [2%Z].
Proof. reflexivity. Qed.

Example search_and_category :
  Location.id <$> filterLocations JS.toLowerCaseAscii [shanghai; beijing] "a" (Some "居住")
  = [1%Z].
Proof. reflexivity. Qed.

Example category_is_case_sensitive :
  filterLocations JS.toLowerCaseAscii
    [Location.mk 3 "x" "x" (0 # 1, 0 # 1) "" "" "" None (Some "Trip") None None None]
    "" (Some "trip")
  = [].
Proof. reflexivity. Qed.

(** ** Rendering *)

Lemma render_undefined p s :
  currentMapStyle s = None →
  render p s = JS.TypeError "Cannot read properties of undefined (reading 'name')".
Proof. intros H. unfold render. by rewrite H. Qed.

Lemma render_defined p s st :
  currentMapStyle s = Some st →
  ∃ v, render p s = JS.Normal v
       ∧ tileUrl v = MapStyle.url st
       ∧ tileAttribution v = MapStyle.attribution st
       ∧ selectValue (styleSelect v) = MapStyle.name st
       ∧ options (styleSelect v)
         = ((λ style, mkOption (Some (MapStyle.name style)) (MapStyle.name style)
                        (styleLabel (languageOf p) style)) <$> mapStylesOf p)
       ∧ markers v = (renderMarker (languageOf p) <$> items (filteredLocations s))
       ∧ fitLocations v = filteredLocations s
       ∧ containerCenter v = defaultCenterOf p
       ∧ containerZoom v = defaultZoomOf p
       ∧ searchInput v
         = (if enableSearchOf p
            then Some (mkInput (match languageOf p with
                                | zh => "搜索地点..."
                                | en => "Search locations..."
                                end) (searchTerm s))
            else None)
       ∧ (λ sel, optionValue <$> options sel) <$> categorySelect v
         = (if enableFilterOf p
            then Some ("" :: categoryOptions (elements (Props.locations p)))
            else None)
       ∧ selectValue <$> categorySelect v
         = (if enableFilterOf p then Some (default "" (filterCategory s)) else None).
Proof.
  intros H. unfold render. rewrite H. simpl. eexists. split; [reflexivity|]. simpl.
  repeat split.
  - by destruct (enableSearchOf p), (enableFilterOf p).
  - destruct (enableSearchOf p), (enableFilterOf p); simpl; try done;
      f_equal; f_equal; rewrite <- list_fmap_compose; apply list_fmap_id.
  - by destruct (enableSearchOf p), (enableFilterOf p).
Qed.

Lemma render_is_Some p s : is_Some (currentMapStyle s) → ∃ v, render p s = JS.Normal v.
Proof. intros [st H]. destruct (render_defined p s st H) as (v & Hv & _). eauto. Qed.

Lemma markerPin_language lang1 lang2 l :
  markerPin (renderMarker lang1 l) = markerPin (renderMarker lang2 l).
Proof. reflexivity. Qed.

(** ** The state machine *)

Section Machine.
Variable toLowerCase : string → string.

Lemma runFitEffect_frame c :
  props (runFitEffect c).1 = props c
  ∧ state (runFitEffect c).1 = state c
  ∧ filterDeps (runFitEffect c).1 = filterDeps c
  ∧ nextRef (runFitEffect c).1 = nextRef c
  ∧ fitDeps (runFitEffect c).1 = Some (ref (filteredLocations (state c))).
Proof. unfold runFitEffect. by destruct (decide _). Qed.

Lemma runFilterEffect_style c :
  currentMapStyle (state (runFilterEffect toLowerCase c).1) = currentMapStyle (state c).
Proof. unfold runFilterEffect. by destruct (decide _). Qed.

Lemma commit_defined c :
  is_Some (currentMapStyle (state c)) →
  commit toLowerCase c = JS.Normal (effects toLowerCase c).
Proof.
  intros Hst. unfold commit, effects.
  destruct (render_is_Some (props c) (state c) Hst) as [v ->]. simpl.
  destruct (runFitEffect_frame c) as (_ & Hs1 & _).
  destruct (runFitEffect c) as [c1 cmds1]. simpl in Hs1.
  pose proof (runFilterEffect_style c1) as Hs2.
  destruct (runFilterEffect toLowerCase c1) as [c2 stored]. simpl in Hs2.
  destruct stored; [|done].
  destruct (render_is_Some (props c2) (state c2)) as [v' ->]; [congruence|].
  simpl. by destruct (runFitEffect c2).
Qed.

Lemma commit_undefined c :
  currentMapStyle (state c) = None →
  commit toLowerCase c
  = JS.TypeError "Cannot read properties of undefined (reading 'name')".
Proof. intros H. unfold commit. by rewrite render_undefined. Qed.

(** The effects from a configuration whose fit effect is up to date. *)
Lemma effects_fit_settled c :
  fitDeps c = Some (ref (filteredLocations (state c))) →
  (∀ n, ref (filteredLocations (state c)) = OwnArray n → (n < nextRef c)%nat) →
  effects toLowerCase c
  = if decide (filterDeps c = Some (depsOf c)) then (c, [])
    else
      let filtered :=
        mkArray (OwnArray (nextRef c))
          (filterLocations toLowerCase (elements (Props.locations (props c)))
             (searchTerm (state c)) (filterCategory (state c))) in
      (mkConfig (props c) (setFilteredLocations filtered (state c))
         (Some (depsOf c)) (Some (OwnArray (nextRef c))) (S (nextRef c)),
       FitBoundsToLocations (items filtered)).
Proof.
  intros Hfit Hfresh. unfold effects, runFitEffect at 1.
  rewrite decide_True by done. unfold runFilterEffect, depsOf.
  destruct (decide _) as [|_]; [done|].
  unfold runFitEffect. simpl. rewrite decide_False; [done|].
  rewrite Hfit. intros [= Heq]. apply Hfresh in Heq. lia.
Qed.

Lemma handle_frame c e :
  filterDeps (handle c e) = filterDeps c
  ∧ fitDeps (handle c e) = fitDeps c
  ∧ nextRef (handle c e) = nextRef c
  ∧ filteredLocations (state (handle c e)) = filteredLocations (state c)
  ∧ (is_Some (currentMapStyle (state c)) →
     is_Some (currentMapStyle (state (handle c e))))
  ∧ (filterCategory (state c) ≠ Some "" →
     filterCategory (state (handle c e)) ≠ Some "").
Proof.
  destruct e as [v|v|v|i|p]; simpl; try done.
  - repeat split; try done. intros _. destruct (JS.truthy v) eqn:Hv; [|done].
    apply truthy_spec in Hv. congruence.
  - by destruct (List.find _ _).
Qed.

Lemma handle_elements c e :
  Coherent c e → depsOf (handle c e) = depsOf c →
  elements (Props.locations (props (handle c e))) = elements (Props.locations (props c)).
Proof.
  destruct e as [v|v|v|i|p]; simpl; try done.
  - by destruct (List.find _ _).
  - intros Hco [= Hid]. by apply Hco.
Qed.

(** One step from a settled configuration: it succeeds, the result is
    settled, only [filteredLocations] may differ from what the handler
    left, and the map is given a command exactly when the filter effect
    stored a new array. *)
Lemma step_settled c e :
  Settled toLowerCase c → Coherent c e →
  ∃ c' cmds,
    step toLowerCase c e = JS.Normal (c', cmds)
    ∧ Settled toLowerCase c'
    ∧ props c' = props (handle c e)
    ∧ state c' = setFilteredLocations (filteredLocations (state c')) (state (handle c e))
    ∧ if decide (depsOf (handle c e) = depsOf c)
      then filteredLocations (state c') = filteredLocations (state c) ∧ cmds = []
      else cmds = FitBoundsToLocations (items (filteredLocations (state c'))).
Proof.
  intros (Hfd & Hfit & Hitems & Hfresh & Hcat & Hst) Hco.
  destruct (handle_frame c e) as (Hfd0 & Hfit0 & Hnext0 & Hfl0 & Hst0 & Hcat0).
  unfold step. rewrite commit_defined by auto.
  rewrite effects_fit_settled; [|by rewrite Hfit0, Hfl0|by rewrite Hfl0, Hnext0].
  rewrite Hfd0, Hfd.
  destruct (decide (Some (depsOf c) = Some (depsOf (handle c e)))) as [Heq|Hne].
  - assert (depsOf (handle c e) = depsOf c) as Hd by congruence.
    eexists _, _. split; [reflexivity|].
    rewrite decide_True by done. repeat split; auto.
    + by rewrite Hfd0, Hfd, Hd.
    + by rewrite Hfit0, Hfl0.
    + rewrite Hfl0, Hitems, handle_elements by done.
      unfold depsOf in Hd. by injection Hd as _ -> ->.
    + rewrite Hfl0, Hnext0. done.
    + by destruct (state (handle c e)).
  - eexists _, _. split; [reflexivity|].
    rewrite decide_False by congruence. simpl. repeat split; auto.
    intros n [= <-]. simpl. lia.
Qed.

Lemma mount_settled p st :
  mapStylesOf p !! 0%nat = Some st →
  ∃ c, mount toLowerCase p
       = JS.Normal (c, FitBoundsToLocations (elements (Props.locations p))
                       ++ FitBoundsToLocations (elements (Props.locations p)))
       ∧ Settled toLowerCase c
       ∧ props c = p
       ∧ state c = mkState None (Some st) "" None
                     (mkArray (OwnArray 0) (elements (Props.locations p))).
Proof.
  intros Hst. unfold mount. rewrite commit_defined by (exists st; exact Hst).
  unfold effects, runFitEffect, runFilterEffect, initialConfig, initialState.
  cbn [decide fitDeps filterDeps state props filteredLocations fst snd].
  rewrite Hst. simpl.
  eexists. split; [reflexivity|]. repeat split; simpl; eauto.
  intros n [= <-]. lia.
Qed.

Lemma mount_undefined p :
  mapStylesOf p = [] →
  mount toLowerCase p
  = JS.TypeError "Cannot read properties of undefined (reading 'name')".
Proof. intros H. unfold mount. apply commit_undefined. simpl. by rewrite H. Qed.

Lemma Reachable_Settled c : Reachable toLowerCase c → Settled toLowerCase c.
Proof.
  induction 1 as [p c cmds Hm|c e c' cmds _ IH Hco Hs].
  - destruct (mapStylesOf p) as [|st sts] eqn:Hsts.
    + by rewrite mount_undefined in Hm.
    + destruct (mount_settled p st) as (c0 & Hm0 & Hset & _); [by rewrite Hsts|].
      congruence.
  - destruct (step_settled c e IH Hco) as (c0 & cmds0 & Hs0 & Hset & _). congruence.
Qed.

(** C2.  The visible subset.  In every configuration the component
    reaches, the stored visible subset is exactly the sublist of the
    locations that pass the text rule for the current search term and the
    category rule for the selected category: nothing is selected, or the
    category of the location is equal, as a string, to the selected one.
    The selected category is never the empty string, and the subset is
    what the filter function returns. *)
Theorem visible_subset_exact (c : Config) :
  Reachable toLowerCase c →
  Selects (λ l, TextMatches toLowerCase (searchTerm (state c)) l
                ∧ CategoryMatches (filterCategory (state c)) l)
    (elements (Props.locations (props c)))
    (items (filteredLocations (state c)))
  ∧ filterCategory (state c) ≠ Some ""
  ∧ items (filteredLocations (state c))
    = filterLocations toLowerCase (elements (Props.locations (props c)))
        (searchTerm (state c)) (filterCategory (state c)).
Proof.
  intros Hr. destruct (Reachable_Settled c Hr) as (_ & _ & Hitems & _ & Hcat & _).
  split; [|done]. rewrite Hitems. by apply filterLocations_Selects.
Qed.

(** The style the handler of the style select leaves selected. *)
Lemma handle_StyleChange c value :
  handle c (StyleChange value)
  = withState c
      (setCurrentMapStyle
         (match List.find (λ style, String.eqb (MapStyle.name style) value)
                          (mapStylesOf (props c)) with
          | Some selected => Some selected
          | None => currentMapStyle (state c)
          end) (state c)).
Proof. simpl. destruct (List.find _ _); [done|]. by destruct c as [? []]. Qed.

(** C8.  A style switch.  From every configuration the component reaches,
    choosing a style changes [currentMapStyle] and nothing else of the
    state, gives the map no command, so that the camera stays where it
    is, and the render differs in the URL and the attribution of the tile
    layer and in the value the style select shows: the markers, the
    controls and the centre and zoom handed to the map are the same. *)
Theorem style_switch_changes_tiles_only (c : Config) (value : string) :
  Reachable toLowerCase c →
  ∃ c' cmds st v,
    step toLowerCase c (StyleChange value) = JS.Normal (c', cmds)
    ∧ cmds = []
    ∧ (∀ fitBoundsCamera cam, applyCommands fitBoundsCamera cmds cam = cam)
    ∧ props c' = props c
    ∧ Some st = match List.find (λ style, String.eqb (MapStyle.name style) value)
                                (mapStylesOf (props c)) with
                | Some selected => Some selected
                | None => currentMapStyle (state c)
                end
    ∧ state c' = setCurrentMapStyle (Some st) (state c)
    ∧ render (props c) (state c) = JS.Normal v
    ∧ render (props c') (state c')
      = JS.Normal
          (mkView (controlsShown v) (searchInput v) (categorySelect v)
             (mkSelect (MapStyle.name st) (options (styleSelect v)))
             (containerCenter v) (containerZoom v)
             (MapStyle.url st) (MapStyle.attribution st)
             (fitLocations v) (markers v)).
Proof.
  intros Hr. pose proof (Reachable_Settled c Hr) as Hset.
  destruct (step_settled c (StyleChange value) Hset I)
    as (c' & cmds & Hstep & Hset' & Hprops & Hstate & Hcmds).
  rewrite handle_StyleChange in Hprops, Hstate, Hcmds.
  rewrite decide_True in Hcmds by done. destruct Hcmds as [Hfl ->].
  destruct Hset as (_ & _ & _ & _ & _ & [st0 Hst0]).
  destruct Hset' as (_ & _ & _ & _ & _ & [st Hst]).
  simpl in Hprops. rewrite Hfl in Hstate.
  assert (state c' = setCurrentMapStyle (Some st) (state c)) as Hstate'.
  { rewrite Hstate in Hst |- *. simpl in Hst. rewrite Hst.
    by destruct (state c). }
  exists c', [], st. eexists. repeat split; try done.
  - rewrite Hstate in Hst. by simpl in Hst.
  - unfold render. rewrite Hst0. reflexivity.
  - rewrite Hprops, Hstate'. reflexivity.
Qed.

(** C9.  Hidden controls.  From every configuration the component
    reaches, new props that differ in [enableSearch] and [enableFilter]
    only leave the whole state as it is, search term and selected category
    included, and give the map no command; the visible subset is still the
    sublist selected by the search term and the category, and the render
    shows the same markers, with the search box present exactly when
    [enableSearch] holds and the category select exactly when
    [enableFilter] holds. *)
Theorem hiding_controls_keeps_filters (c : Config) (p : TravelMapProps) :
  Reachable toLowerCase c →
  eraseFlags p = eraseFlags (props c) →
  ∃ c' v v',
    step toLowerCase c (PropsChange p) = JS.Normal (c', [])
    ∧ props c' = p
    ∧ state c' = state c
    ∧ Selects (λ l, TextMatches toLowerCase (searchTerm (state c)) l
                    ∧ CategoryMatches (filterCategory (state c)) l)
        (elements (Props.locations p)) (items (filteredLocations (state c')))
    ∧ render (props c) (state c) = JS.Normal v
    ∧ render (props c') (state c') = JS.Normal v'
    ∧ markers v' = markers v
    ∧ fitLocations v' = fitLocations v
    ∧ (is_Some (searchInput v') ↔ enableSearchOf p = true)
    ∧ (is_Some (categorySelect v') ↔ enableFilterOf p = true).
Proof.
  intros Hr Hp. pose proof (Reachable_Settled c Hr) as Hset.
  assert (Props.locations p = Props.locations (props c)) as Hloc
    by exact (f_equal Props.locations Hp).
  assert (Props.language p = Props.language (props c)) as Hlang
    by exact (f_equal Props.language Hp).
  assert (Coherent c (PropsChange p)) as Hco by (simpl; by rewrite Hloc).
  destruct (step_settled c (PropsChange p) Hset Hco)
    as (c' & cmds & Hstep & Hset' & Hprops & Hstate & Hcmds).
  rewrite decide_True in Hcmds by (unfold depsOf; simpl; by rewrite Hloc).
  destruct Hcmds as [Hfl ->]. simpl in Hprops, Hstate.
  assert (state c' = state c) as Hstate'.
  { rewrite Hstate, Hfl. by destruct (state c). }
  destruct Hset as (_ & _ & Hitems & _ & Hcat & [st Hst]).
  destruct (render_defined (props c) (state c) st Hst) as (v & Hv & _ & _ & _ & _ & Hm & Hf & _).
  destruct (render_defined p (state c) st Hst)
    as (v' & Hv' & _ & _ & _ & _ & Hm' & Hf' & _ & _ & Hsearch & Hopts & _).
  exists c', v, v'. rewrite Hprops, Hstate'.
  split; [done|]. split; [done|]. split; [done|].
  split; [rewrite Hitems, Hloc; by apply filterLocations_Selects|].
  split; [done|]. split; [done|].
  split; [rewrite Hm, Hm'; unfold languageOf; by rewrite Hlang|].
  split; [congruence|]. split.
  - rewrite Hsearch. destruct (enableSearchOf p).
    + split; [done | eauto].
    + split; [by intros [? ?] | done].
  - by destruct (categorySelect v'), (enableFilterOf p).
Qed.

(** C10.  The initial style.  The style selected at first is the element
    of [mapStyles] at index 0, read without a guard.  With a list that has
    a first element the first render shows its name, URL and attribution.
    With the empty list the initial style is undefined, a read of [name],
    [url] or [attribution] from it is an access to a property of
    [undefined], and the first render, and with it the mount, throws on
    the read of [name]. *)
Theorem initial_style_is_first_style (p : TravelMapProps) :
  currentMapStyle (initialState p) = mapStylesOf p !! 0%nat
  ∧ match mapStylesOf p with
    | st :: _ =>
        currentMapStyle (initialState p) = Some st
        ∧ ∃ v, render p (initialState p) = JS.Normal v
               ∧ selectValue (styleSelect v) = MapStyle.name st
               ∧ tileUrl v = MapStyle.url st
               ∧ tileAttribution v = MapStyle.attribution st
    | [] =>
        currentMapStyle (initialState p) = None
        ∧ JS.getProp "name" MapStyle.name (currentMapStyle (initialState p))
          = JS.TypeError "Cannot read properties of undefined (reading 'name')"
        ∧ JS.getProp "url" MapStyle.url (currentMapStyle (initialState p))
          = JS.TypeError "Cannot read properties of undefined (reading 'url')"
        ∧ JS.getProp "attribution" MapStyle.attribution
            (currentMapStyle (initialState p))
          = JS.TypeError
              "Cannot read properties of undefined (reading 'attribution')"
        ∧ render p (initialState p)
          = JS.TypeError "Cannot read properties of undefined (reading 'name')"
        ∧ mount toLowerCase p
          = JS.TypeError "Cannot read properties of undefined (reading 'name')"
    end.
Proof.
  split; [done|]. destruct (mapStylesOf p) as [|st sts] eqn:Hsts.
  - assert (currentMapStyle (initialState p) = None) as Hnone
      by (simpl; by rewrite Hsts).
    rewrite Hnone. repeat split; try done.
    + by apply render_undefined.
    + by apply mount_undefined.
  - assert (currentMapStyle (initialState p) = Some st) as Hsome
      by (simpl; by rewrite Hsts).
    split; [done|].
    destruct (render_defined p (initialState p) st Hsome) as (v & Hv & Hu & Ha & Hn & _).
    eauto 10.
Qed.

(** *** Runs that differ in the language *)

Lemma eraseLanguage_eq p1 p2 :
  eraseLanguage p1 = eraseLanguage p2 →
  Props.locations p1 = Props.locations p2 ∧ mapStylesOf p1 = mapStylesOf p2.
Proof.
  intros Hp. split; [exact (f_equal Props.locations Hp)|].
  unfold mapStylesOf. f_equal. exact (f_equal Props.mapStyles Hp).
Qed.

Lemma SameButLanguage_props c1 c2 :
  SameButLanguage c1 c2 →
  Props.locations (props c1) = Props.locations (props c2)
  ∧ mapStylesOf (props c1) = mapStylesOf (props c2).
Proof. intros (Hp & _). by apply eraseLanguage_eq. Qed.

Lemma effects_language c1 c2 :
  SameButLanguage c1 c2 →
  SameButLanguage (effects toLowerCase c1).1 (effects toLowerCase c2).1
  ∧ (effects toLowerCase c1).2 = (effects toLowerCase c2).2.
Proof.
  intros Hsame. destruct (SameButLanguage_props c1 c2 Hsame) as [Hloc _].
  destruct Hsame as (Hp & Hs & Hfd & Hft & Hn).
  destruct c1 as [p1 s1 fd1 ft1 n1], c2 as [p2 s2 fd2 ft2 n2]. simpl in *. subst.
  unfold effects, runFitEffect, runFilterEffect, SameButLanguage.
  cbn [fitDeps state].
  destruct (decide (ft2 = _)); cbn [filterDeps props state nextRef fitDeps];
    rewrite Hloc; destruct (decide (fd2 = _));
    cbn [filterDeps props state nextRef fitDeps fst snd]; try done;
    destruct (decide _); by cbn [filterDeps props state nextRef fitDeps fst snd].
Qed.

Lemma commit_language c1 c2 :
  SameButLanguage c1 c2 →
  AlikeButLanguage (commit toLowerCase c1) (commit toLowerCase c2).
Proof.
  intros Hsame. pose proof Hsame as (_ & Hs & _).
  destruct (currentMapStyle (state c1)) as [st|] eqn:Hst.
  - rewrite !commit_defined by (rewrite <- ?Hs, Hst; eauto).
    destruct (effects_language c1 c2 Hsame) as [H1 H2]. simpl.
    by destruct (effects toLowerCase c1), (effects toLowerCase c2).
  - rewrite !commit_undefined by (by rewrite <- ?Hs). by simpl.
Qed.

Lemma handle_language c1 c2 e1 e2 :
  SameButLanguage c1 c2 → eraseLanguageEvent e1 = eraseLanguageEvent e2 →
  SameButLanguage (handle c1 e1) (handle c2 e2).
Proof.
  intros Hsame He. destruct (SameButLanguage_props c1 c2 Hsame) as [_ Hstyles].
  destruct Hsame as (Hp & Hs & Hfd & Hft & Hn).
  destruct e1, e2; cbn [eraseLanguageEvent] in He; try discriminate He;
    injection He as He; unfold SameButLanguage; cbn [handle]; subst.
  - simpl. by rewrite Hs.
  - simpl. by rewrite Hs.
  - rewrite Hstyles. destruct (List.find _ _); simpl; by rewrite ?Hs.
  - simpl. by rewrite Hs.
  - unfold eraseLanguage. simpl. repeat split; congruence.
Qed.

Lemma runFrom_language c1 c2 evs1 evs2 :
  SameButLanguage c1 c2 →
  eraseLanguageEvent <$> evs1 = eraseLanguageEvent <$> evs2 →
  AlikeButLanguage (runFrom toLowerCase c1 evs1) (runFrom toLowerCase c2 evs2).
Proof.
  revert c1 c2 evs2. induction evs1 as [|e1 evs1 IH]; intros c1 c2 [|e2 evs2] Hsame Hevs;
    try done.
  injection Hevs as He Hevs. simpl. unfold step.
  pose proof (commit_language _ _ (handle_language c1 c2 e1 e2 Hsame He)) as Hc.
  destruct (commit toLowerCase (handle c1 e1)) as [[c1' cmds1]|m1],
           (commit toLowerCase (handle c2 e2)) as [[c2' cmds2]|m2]; try done.
  destruct Hc as [Hsame' ->]. simpl.
  specialize (IH c1' c2' evs2 Hsame' Hevs).
  by destruct (runFrom toLowerCase c1' evs1) as [[c1'' cmds1']|m1],
              (runFrom toLowerCase c2' evs2) as [[c2'' cmds2']|m2];
    try done; destruct IH as [? ->].
Qed.

Lemma pinsOf_language c1 c2 : SameButLanguage c1 c2 → pinsOf c1 = pinsOf c2.
Proof.
  intros Hsame. destruct (SameButLanguage_props c1 c2 Hsame) as [Hloc Hstyles].
  destruct Hsame as (Hp & Hs & _). unfold pinsOf, render. rewrite Hs.
  destruct (currentMapStyle (state c2)); [|done]. simpl.
  by rewrite <- !list_fmap_compose.
Qed.

(** C7.  The language.  Two runs of the component whose props, and whose
    later props, differ in [language] only, under the same events, end
    alike: either both throw the same error, or they hold the same state,
    the same visible subset in particular, have given the map the same
    commands and render markers with the same keys, positions and icons.
    Only the texts differ. *)
Theorem language_changes_texts_only (p1 p2 : TravelMapProps) (evs1 evs2 : list Event) :
  eraseLanguage p1 = eraseLanguage p2 →
  eraseLanguageEvent <$> evs1 = eraseLanguageEvent <$> evs2 →
  SameOutcome (run toLowerCase p1 evs1) (run toLowerCase p2 evs2).
Proof.
  intros Hp Hevs. unfold run, mount.
  assert (SameButLanguage (initialConfig p1) (initialConfig p2)) as Hinit.
  { destruct (eraseLanguage_eq p1 p2 Hp) as [Hloc Hstyles].
    unfold SameButLanguage, initialConfig, initialState. simpl.
    by rewrite Hloc, Hstyles. }
  pose proof (commit_language _ _ Hinit) as Hc.
  destruct (commit toLowerCase (initialConfig p1)) as [[c1 cmds1]|m1],
           (commit toLowerCase (initialConfig p2)) as [[c2 cmds2]|m2]; try done.
  destruct Hc as [Hsame ->]. simpl.
  pose proof (runFrom_language c1 c2 evs1 evs2 Hsame Hevs) as Hr.
  destruct (runFrom toLowerCase c1 evs1) as [[c1' cmds1']|m1],
           (runFrom toLowerCase c2 evs2) as [[c2' cmds2']|m2]; try done.
  destruct Hr as [Hsame' ->]. simpl.
  split; [by destruct Hsame' as (_ & ? & _)|]. split; [done|].
  by apply pinsOf_language.
Qed.

End Machine.

(** ** The star rating *)

Lemma indexBelow_spec (i : nat) (r : Q) :
  indexBelow i r = true ↔ (inject_Z (Z.of_nat i) < r)%Q.
Proof.
  unfold indexBelow. rewrite negb_true_iff, <- not_true_iff_false, Qle_bool_iff.
  split; [apply Qnot_le_lt | apply Qlt_not_le].
Qed.

Lemma indexBelow_ceiling (i : nat) (r : Q) :
  indexBelow i r = (Z.of_nat i <? Qceiling r)%Z.
Proof.
  apply eq_true_iff_eq. rewrite indexBelow_spec, Z.ltb_lt. split.
  - intros Hlt. apply Z.nle_gt. intros Hle.
    apply (Qlt_not_le _ _ Hlt). apply Qle_trans with (inject_Z (Qceiling r)).
    + apply Qle_ceiling.
    + by rewrite <- Zle_Qle.
  - intros Hlt. apply Qnot_le_lt. intros Hle. apply Qceiling_resp_le in Hle.
    rewrite Qceiling_Z in Hle. lia.
Qed.

Lemma renderRating_unfold (r : Q) :
  renderRating (Some r)
  = [ mkStar 0 (if indexBelow 0 r then gold else grey);
      mkStar 1 (if indexBelow 1 r then gold else grey);
      mkStar 2 (if indexBelow 2 r then gold else grey);
      mkStar 3 (if indexBelow 3 r then gold else grey);
      mkStar 4 (if indexBelow 4 r then gold else grey) ].
Proof. reflexivity. Qed.

Lemma star_colour (b : bool) :
  String.eqb (if b then gold else grey) gold = b.
Proof. by destruct b. Qed.

Lemma filledStars_ceiling (r : Q) :
  Z.of_nat (filledStars (renderRating (Some r))) = Z.min 5 (Z.max 0 (Qceiling r)).
Proof.
  rewrite renderRating_unfold. unfold filledStars. cbn [List.filter starColor].
  rewrite !star_colour, !indexBelow_ceiling.
  repeat match goal with
         | |- context [(?a <? ?b)%Z] => destruct (Z.ltb_spec a b)
         end; simpl length; lia.
Qed.

(** C5, as amended.  The number of filled stars is the rating rounded up to
    an integer and capped to the five slots from above and to zero from
    below; for an integer rating [n] it is [min 5 (max 0 n)], which is [n]
    exactly for [n] from 0 to 5. *)
Theorem filled_stars_capped :
  (∀ r : Q, Z.of_nat (filledStars (renderRating (Some r)))
            = Z.min 5 (Z.max 0 (Qceiling r)))
  ∧ (∀ n : Z, Z.of_nat (filledStars (renderRating (Some (inject_Z n))))
              = Z.min 5 (Z.max 0 n))
  ∧ (∀ n : Z, Z.of_nat (filledStars (renderRating (Some (inject_Z n)))) = n
              ↔ (0 ≤ n ≤ 5)%Z).
Proof.
  split; [apply filledStars_ceiling|].
  split; intros n; rewrite filledStars_ceiling, Qceiling_Z; lia.
Qed.

(** C5, as stated, fails: a rating of 7 fills five stars, not seven. *)
Lemma rating_seven_fills_five :
  filledStars (renderRating (Some (inject_Z 7))) = 5%nat
  ∧ Z.of_nat (filledStars (renderRating (Some (inject_Z 7)))) ≠ 7%Z.
Proof. split; [reflexivity | by vm_compute]. Qed.

Lemma truthyNum_spec (r : Q) : JS.truthyNum r = true ↔ ¬ r == 0.
Proof.
  unfold JS.truthyNum, Qeq. simpl. rewrite negb_true_iff, Z.eqb_neq. lia.
Qed.

(** C6, as amended.  For every rating [r] the star routine gives exactly
    five slots; the slot at index [i], for [i] from 0 to 4, has key [i], is
    filled when [i < r] and empty otherwise, inside the range 1 to 5 or not.
    The popup of a location shows these slots for every rating but zero; for
    a rating of zero the guard on the rating line lets no star display
    through. *)
Theorem rating_slots (r : Q) :
  length (renderRating (Some r)) = 5%nat
  ∧ (∀ i, (i < 5)%nat →
       ∃ star, renderRating (Some r) !! i = Some star
               ∧ starKey star = i
               ∧ (starColor star = gold ↔ (inject_Z (Z.of_nat i) < r)%Q)
               ∧ (starColor star = grey ↔ ¬ (inject_Z (Z.of_nat i) < r)%Q))
  ∧ (∀ language l,
       Location.rating l = Some r →
       (¬ r == 0 →
        ratingLine (renderPopup language l) = RatingStars (renderRating (Some r)))
       ∧ (r == 0 →
          ∀ stars, ratingLine (renderPopup language l) ≠ RatingStars stars)).
Proof.
  split; [reflexivity|]. split.
  - intros i Hi. rewrite renderRating_unfold.
    destruct i as [|[|[|[|[|i]]]]]; [..|lia]; (eexists; split; [reflexivity|]);
      (split; [reflexivity|]); cbn [starColor]; rewrite <- indexBelow_spec;
      destruct (indexBelow _ r); by split.
  - intros language l Hr. unfold renderPopup. cbn [ratingLine]. rewrite Hr.
    pose proof (truthyNum_spec r) as Ht. destruct (JS.truthyNum r); split.
    + done.
    + intros H0. exfalso. by apply Ht.
    + intros Hne. apply Ht in Hne. done.
    + done.
Qed.

(** C6, as stated, fails: the popup of a place rated zero has no star
    display, and no five slots. *)
Lemma rating_zero_shows_no_slots :
  Location.rating zeroRated = Some (0 # 1)
  ∧ ¬ ∃ stars, ratingLine (renderPopup zh zeroRated) = RatingStars stars
               ∧ length stars = 5%nat.
Proof. split; [reflexivity|]. intros (stars & Hstars & _). discriminate Hstars. Qed.

(** C6 at the example: the popup of Beijing, rated 7, shows the five
    slots of that rating. *)
Lemma rating_slots_witness :
  Location.rating beijing = Some (7 # 1)
  ∧ ¬ (7 # 1) == 0
  ∧ ratingLine (renderPopup en beijing) = RatingStars (renderRating (Some (7 # 1))).
Proof.
  assert (¬ (7 # 1) == 0) as Hne by (intros H; discriminate H).
  split; [reflexivity|]. split; [exact Hne|].
  exact (proj1 (proj2 (proj2 (rating_slots (7 # 1))) en beijing eq_refl) Hne).
Defined.

(** ** Bounding boxes *)

Lemma Encloses_refl b : Encloses b b.
Proof. unfold Encloses. split_and!; apply Qle_refl. Qed.

Lemma Encloses_trans b1 b2 b3 : Encloses b1 b2 → Encloses b2 b3 → Encloses b1 b3.
Proof.
  intros (H1 & H2 & H3 & H4) (H1' & H2' & H3' & H4').
  split_and!; eapply Qle_trans; eassumption.
Qed.

Lemma Encloses_Contains b b' p : Encloses b b' → Contains b' p → Contains b p.
Proof.
  intros (H1 & H2 & H3 & H4) (H1' & H2' & H3' & H4').
  split_and!; eapply Qle_trans; eassumption.
Qed.

Lemma Encloses_point b p : Encloses b (mkBounds p p) ↔ Contains b p.
Proof. unfold Encloses, Contains. simpl. tauto. Qed.

(** Extending a box by a point gives the smallest box around both. *)
Lemma extend_smallest b0 p :
  ∃ b1, extend (Some b0) p = Some b1
        ∧ Encloses b1 b0 ∧ Contains b1 p
        ∧ ∀ b', Encloses b' b0 → Contains b' p → Encloses b' b1.
Proof.
  destruct b0 as [sw ne]. eexists. split; [reflexivity|]. split; [|split].
  - unfold Encloses. cbn [southWest northEast lat lng].
    split_and!; [apply Q.le_min_r | apply Q.le_min_r | apply Q.le_max_r | apply Q.le_max_r].
  - unfold Contains. cbn [southWest northEast lat lng].
    split_and!; [apply Q.le_min_l | apply Q.le_max_l | apply Q.le_min_l | apply Q.le_max_l].
  - intros b' (H1 & H2 & H3 & H4) (H1' & H2' & H3' & H4').
    unfold Encloses. cbn [southWest northEast lat lng] in *.
    split_and!; [apply Q.min_glb | apply Q.min_glb
                 | apply Q.max_lub | apply Q.max_lub]; assumption.
Qed.

Lemma foldl_extend_smallest points b0 :
  ∃ b, foldl extend (Some b0) points = Some b
       ∧ Encloses b b0
       ∧ (∀ p, p ∈ points → Contains b p)
       ∧ ∀ b', Encloses b' b0 → (∀ p, p ∈ points → Contains b' p) → Encloses b' b.
Proof.
  revert b0. induction points as [|p points IH]; intros b0.
  - exists b0. split_and!; [done | apply Encloses_refl | | done].
    intros p Hp. by apply elem_of_nil in Hp.
  - destruct (extend_smallest b0 p) as (b1 & Hb1 & Henc1 & Hp1 & Hmin1).
    destruct (IH b1) as (b & Hb & Henc & Hpts & Hmin).
    exists b. cbn [foldl]. rewrite Hb1. split; [done|]. split; [|split].
    + by eapply Encloses_trans.
    + intros q [->|Hq]%elem_of_cons; [by eapply Encloses_Contains | auto].
    + intros b' Hb' Hall. apply Hmin.
      * apply Hmin1; [done|]. apply Hall. by left.
      * intros q Hq. apply Hall. by right.
Qed.

Lemma latLngBounds_smallest p points :
  ∃ b, latLngBounds (p :: points) = Some b
       ∧ (∀ q, q ∈ p :: points → Contains b q)
       ∧ ∀ b', (∀ q, q ∈ p :: points → Contains b' q) → Encloses b' b.
Proof.
  destruct (foldl_extend_smallest points (mkBounds p p)) as (b & Hb & Henc & Hpts & Hmin).
  exists b. split; [done|]. split.
  - intros q [->|Hq]%elem_of_cons; [by apply Encloses_point | auto].
  - intros b' Hall. apply Hmin.
    + apply Encloses_point, Hall. by left.
    + intros q Hq. apply Hall. by right.
Qed.

Lemma FitBoundsToLocations_Frames V : Frames V (FitBoundsToLocations V).
Proof.
  destruct V as [|l V]; [done|]. unfold Frames, FitBoundsToLocations.
  rewrite bool_decide_eq_true_2 by (simpl; lia).
  destruct (latLngBounds_smallest (coordinatesOf l) (coordinatesOf <$> V))
    as (b & Hb & Hin & Hmin).
  exists b. split; [f_equal; f_equal; exact Hb|]. split.
  - intros l' Hl'. apply Hin. rewrite <- fmap_cons. by apply list_elem_of_fmap_2.
  - intros b' Hall. apply Hmin. intros q Hq. rewrite <- fmap_cons in Hq.
    apply list_elem_of_fmap in Hq as (l' & -> & Hl'). auto.
Qed.

Section BoundsFit.
Variable toLowerCase : string → string.

(** C4.  The bounds fit.  For a visible subset [V] that is not empty the
    effect gives the map one [fitBounds] command, on the smallest box that
    holds the coordinates of every location of [V], with the fixed padding
    of 50 pixels, and the camera becomes what [fitBounds] makes of it; for
    an empty [V] it gives no command and the camera stays as it was.  The
    effect runs at the mount, for the subset of the first render and for
    the one the filter effect stores, which is all of [locations]; and
    after an event it runs exactly when the filter effect stored a new
    subset, on that subset. *)
Theorem bounds_fit_frames_visible_subset :
  (∀ V, Frames V (FitBoundsToLocations V))
  ∧ (∀ V fitBoundsCamera cam,
       match V with
       | [] => applyCommands fitBoundsCamera (FitBoundsToLocations V) cam = cam
       | _ :: _ =>
           ∃ b, SmallestBox V b
                ∧ applyCommands fitBoundsCamera (FitBoundsToLocations V) cam
                  = fitBoundsCamera (Some b) (50, 50)%Z cam
       end)
  ∧ (∀ p,
       match mapStylesOf p with
       | [] =>
           mount toLowerCase p
           = JS.TypeError "Cannot read properties of undefined (reading 'name')"
       | _ :: _ =>
           ∃ c, mount toLowerCase p
                = JS.Normal
                    (c, FitBoundsToLocations (elements (Props.locations p))
                        ++ FitBoundsToLocations (items (filteredLocations (state c))))
                ∧ items (filteredLocations (state c)) = elements (Props.locations p)
       end)
  ∧ (∀ c e,
       Reachable toLowerCase c → Coherent c e →
       ∃ c' cmds,
         step toLowerCase c e = JS.Normal (c', cmds)
         ∧ if decide (depsOf (handle c e) = depsOf c)
           then filteredLocations (state c') = filteredLocations (state c) ∧ cmds = []
           else cmds = FitBoundsToLocations (items (filteredLocations (state c')))).
Proof.
  split_and!.
  - apply FitBoundsToLocations_Frames.
  - intros V fit cam. pose proof (FitBoundsToLocations_Frames V) as HV.
    destruct V as [|l V]; [done|]. destruct HV as (b & -> & Hb). by exists b.
  - intros p. destruct (mapStylesOf p) as [|st sts] eqn:Hsts.
    + by apply mount_undefined.
    + destruct (mount_settled toLowerCase p st) as (c0 & Hm0 & _ & _ & Hstate);
        [by rewrite Hsts|].
      exists c0. by rewrite Hstate.
  - intros c e Hr Hco.
    destruct (step_settled toLowerCase c e (Reachable_Settled _ c Hr) Hco)
      as (c0 & cmds0 & Hstep0 & _ & _ & _ & Hcmds).
    eauto.
Qed.

End BoundsFit.

(** ** The category options *)

Section FirstSeen.
Context {A : Type} `{EqDecision A}.
Implicit Types (x y : A) (xs acc : list A).

Lemma indexOf_elem x xs : x ∈ xs → ∃ n, JS.indexOf x xs = Some n.
Proof.
  induction xs as [|y xs IH]; [by intros ?%elem_of_nil|].
  intros Hx. simpl. destruct (decide (x = y)) as [|Hne]; [eauto|].
  apply elem_of_cons in Hx as [?|Hx]; [done|].
  destruct (IH Hx) as [k ->]. simpl. eauto.
Qed.

Lemma SeenBefore_cons x xs a b : a ≠ x → b ≠ x → SeenBefore xs a b → SeenBefore (x :: xs) a b.
Proof.
  intros Ha Hb (m & n & Hm & Hn & Hmn). exists (S m), (S n). simpl.
  rewrite !decide_False, Hm, Hn by done. split_and!; [done..|lia].
Qed.

Lemma SeenBefore_head x xs b : b ≠ x → b ∈ xs → SeenBefore (x :: xs) x b.
Proof.
  intros Hb Hin. destruct (indexOf_elem b xs Hin) as [n Hn].
  exists 0%nat, (S n). simpl. rewrite decide_True, decide_False, Hn by done.
  split_and!; [done..|lia].
Qed.

Lemma SeenBefore_irrefl xs a : ¬ SeenBefore xs a a.
Proof. intros (m & n & Hm & Hn & Hmn). rewrite Hm in Hn. injection Hn. lia. Qed.

Lemma StronglySorted_weaken (R R' : A → A → Prop) l :
  StronglySorted R l →
  (∀ a b, a ∈ l → b ∈ l → R a b → R' a b) →
  StronglySorted R' l.
Proof.
  induction 1 as [|a l Hl IH Hal]; intros HR; constructor.
  - apply IH. intros a' b' Ha' Hb'. apply HR; by right.
  - rewrite List.Forall_forall in Hal |- *. intros b Hb.
    apply HR; [by left | right; by apply list_elem_of_In | auto].
Qed.

Lemma StronglySorted_NoDup (R : A → A → Prop) l :
  (∀ a, ¬ R a a) → StronglySorted R l → NoDup l.
Proof.
  intros Hirr. induction 1 as [|a l Hl IH Hal]; constructor; [|done].
  intros Ha. rewrite List.Forall_forall in Hal.
  apply (Hirr a), Hal. by apply list_elem_of_In.
Qed.

(** Adding the elements of [xs] to the set [acc] appends those that are
    new, each once, in the order in which they first occur in [xs]. *)
Lemma foldl_setAdd xs acc :
  ∃ ext, foldl JS.setAdd acc xs = acc ++ ext
         ∧ (∀ y, y ∈ ext ↔ y ∈ xs ∧ y ∉ acc)
         ∧ StronglySorted (SeenBefore xs) ext.
Proof.
  revert acc. induction xs as [|x xs IH]; intros acc.
  - exists []. rewrite app_nil_r. split_and!; [done| |constructor].
    intros y. split; [by intros ?%elem_of_nil | by intros [?%elem_of_nil _]].
  - cbn [foldl]. unfold JS.setAdd at 2. destruct (decide (x ∈ acc)) as [Hx|Hx].
    + destruct (IH acc) as (ext & Hext & Hin & Hsorted).
      exists ext. split_and!; [done| |].
      * intros y. rewrite Hin, elem_of_cons. split; [tauto|].
        intros [[->|?] ?]; tauto.
      * eapply StronglySorted_weaken; [exact Hsorted|].
        intros a b Ha Hb. apply SeenBefore_cons.
        -- intros ->. apply Hin in Ha. tauto.
        -- intros ->. apply Hin in Hb. tauto.
    + destruct (IH (acc ++ [x])) as (ext & Hext & Hin & Hsorted).
      exists (x :: ext). split_and!.
      * by rewrite Hext, <- app_assoc.
      * intros y. rewrite !elem_of_cons, Hin, elem_of_app, list_elem_of_singleton.
        destruct (decide (y = x)) as [->|Hy]; tauto.
      * constructor.
        -- eapply StronglySorted_weaken; [exact Hsorted|].
           intros a b Ha Hb. apply SeenBefore_cons.
           ++ intros ->. apply Hin in Ha. rewrite elem_of_app, list_elem_of_singleton in Ha. tauto.
           ++ intros ->. apply Hin in Hb. rewrite elem_of_app, list_elem_of_singleton in Hb. tauto.
        -- rewrite List.Forall_forall. intros b Hb%list_elem_of_In.
           apply Hin in Hb as [Hb Hnot].
           rewrite elem_of_app, list_elem_of_singleton in Hnot.
           apply SeenBefore_head; [intros ->|]; tauto.
Qed.

Lemma arrayFromSet_spec xs :
  (∀ y, y ∈ JS.arrayFromSet xs ↔ y ∈ xs)
  ∧ StronglySorted (SeenBefore xs) (JS.arrayFromSet xs).
Proof.
  unfold JS.arrayFromSet. destruct (foldl_setAdd xs []) as (ext & -> & Hin & Hsorted).
  simpl. split; [|done]. intros y. rewrite Hin. split; [tauto|].
  intros Hy. split; [done | by intros ?%elem_of_nil].
Qed.

Lemma StronglySorted_omap {B} (f : A → option B) (R : A → A → Prop)
    (R' : B → B → Prop) l :
  (∀ x y a b, f x = Some a → f y = Some b → R x y → R' a b) →
  StronglySorted R l → StronglySorted R' (omap f l).
Proof.
  intros Hf. induction 1 as [|x l Hl IH Hxl]; [constructor|].
  cbn [omap list_omap]. destruct (f x) as [a|] eqn:Hx; [|done].
  constructor; [done|]. rewrite List.Forall_forall in Hxl |- *.
  intros b Hb%list_elem_of_In. apply list_elem_of_omap in Hb as (y & Hy & Hfy).
  eapply Hf; [done..|]. by apply Hxl, list_elem_of_In.
Qed.
End FirstSeen.

Lemma isCategory_Some c s : isCategory c = Some s ↔ c = Some s ∧ s ≠ "".
Proof.
  unfold isCategory. destruct c as [s'|]; [|by split; [|intros []]].
  destruct (JS.truthy s') eqn:Hs'.
  - apply truthy_spec in Hs'. split; [intros [= ->] | intros [[= ->] _]]; done.
  - apply truthy_false in Hs'. split; [done | intros [[= ->] ?]; done].
Qed.

(** C3.  The category options are the category values of the full list of
    locations that are not empty, each once, in the order of their first
    occurrence in that list; the select renders them, after the entry for
    all categories, whatever the search term and the selected category
    are. *)
Theorem category_options_first_seen :
  (∀ L : list Location,
     NoDup (categoryOptions L)
     ∧ (∀ c, c ∈ categoryOptions L
             ↔ c ≠ "" ∧ ∃ l, l ∈ L ∧ Location.category l = Some c)
     ∧ StronglySorted (FirstSeenBefore (Location.category <$> L)) (categoryOptions L))
  ∧ (∀ p s,
       match currentMapStyle s with
       | Some _ =>
           ∃ v, render p s = JS.Normal v
                ∧ (λ select, optionValue <$> options select) <$> categorySelect v
                  = if enableFilterOf p
                    then Some ("" :: categoryOptions (elements (Props.locations p)))
                    else None
       | None =>
           render p s
           = JS.TypeError "Cannot read properties of undefined (reading 'name')"
       end).
Proof.
  split.
  - intros L. destruct (arrayFromSet_spec (Location.category <$> L)) as [Hin Hsorted].
    assert (StronglySorted (FirstSeenBefore (Location.category <$> L)) (categoryOptions L))
      as Hopts.
    { unfold categoryOptions. eapply StronglySorted_omap; [|exact Hsorted].
      intros x y a b [-> _]%isCategory_Some [-> _]%isCategory_Some. done. }
    split_and!; [| |exact Hopts].
    + eapply StronglySorted_NoDup; [|exact Hopts].
      intros a. apply SeenBefore_irrefl.
    + intros c. unfold categoryOptions. rewrite list_elem_of_omap. split.
      * intros (x & Hx & [-> Hc]%isCategory_Some). split; [done|].
        apply Hin, list_elem_of_fmap in Hx as (l & Hl & Hlin). eauto.
      * intros (Hc & l & Hl & Hcat). exists (Some c). split.
        -- apply Hin. rewrite <- Hcat. by apply list_elem_of_fmap_2.
        -- by apply isCategory_Some.
  - intros p s. destruct (currentMapStyle s) as [st|] eqn:Hst.
    + destruct (render_defined p s st Hst) as (v & Hv & H). exists v. tauto.
    + by apply render_undefined.
Qed.

(** ** The properties at the example *)

(** The example configuration is reached by the mount and two events. *)
Lemma exampleConfig_Reachable : Reachable JS.toLowerCaseAscii exampleConfig.
Proof.
  eapply reach_step with (e := FilterChange "旅行");
    [eapply reach_step with (e := SearchChange "BEI");
       [eapply reach_mount with (p := exampleProps); vm_compute; reflexivity
       | exact I
       | vm_compute; reflexivity]
    | exact I
    | vm_compute; reflexivity].
Defined.

(** C2 at the example: of Shanghai and Beijing, the search for "BEI" in the
    category of journeys shows Beijing. *)
Lemma visible_subset_exact_witness :
  Reachable JS.toLowerCaseAscii exampleConfig
  ∧ Selects (λ l, TextMatches JS.toLowerCaseAscii "BEI" l
                  ∧ CategoryMatches (Some "旅行") l)
      [shanghai; beijing] [beijing].
Proof.
  split; [exact exampleConfig_Reachable|].
  exact (proj1 (visible_subset_exact JS.toLowerCaseAscii exampleConfig
                  exampleConfig_Reachable)).
Defined.

(** C7 at the example: the same events under the default language and under
    English. *)
Lemma language_changes_texts_only_witness :
  eraseLanguage exampleProps = eraseLanguage englishProps
  ∧ eraseLanguageEvent <$> exampleEvents = eraseLanguageEvent <$> exampleEvents
  ∧ SameOutcome (run JS.toLowerCaseAscii exampleProps exampleEvents)
      (run JS.toLowerCaseAscii englishProps exampleEvents).
Proof.
  split; [reflexivity|]. split; [reflexivity|].
  apply (language_changes_texts_only JS.toLowerCaseAscii exampleProps englishProps
           exampleEvents exampleEvents); reflexivity.
Defined.

(** C8 at the example: the switch to the dark style. *)
Lemma style_switch_changes_tiles_only_witness :
  Reachable JS.toLowerCaseAscii exampleConfig
  ∧ ∃ c' cmds st v,
      step JS.toLowerCaseAscii exampleConfig (StyleChange "Dark") = JS.Normal (c', cmds)
      ∧ cmds = []
      ∧ (∀ fitBoundsCamera cam, applyCommands fitBoundsCamera cmds cam = cam)
      ∧ props c' = props exampleConfig
      ∧ Some st = match List.find (λ style, String.eqb (MapStyle.name style) "Dark")
                                  (mapStylesOf (props exampleConfig)) with
                  | Some selected => Some selected
                  | None => currentMapStyle (state exampleConfig)
                  end
      ∧ state c' = setCurrentMapStyle (Some st) (state exampleConfig)
      ∧ render (props exampleConfig) (state exampleConfig) = JS.Normal v
      ∧ render (props c') (state c')
        = JS.Normal
            (mkView (controlsShown v) (searchInput v) (categorySelect v)
               (mkSelect (MapStyle.name st) (options (styleSelect v)))
               (containerCenter v) (containerZoom v)
               (MapStyle.url st) (MapStyle.attribution st)
               (fitLocations v) (markers v)).
Proof.
  split; [exact exampleConfig_Reachable|].
  exact (style_switch_changes_tiles_only JS.toLowerCaseAscii exampleConfig "Dark"
           exampleConfig_Reachable).
Defined.

(** C9 at the example: both controls are hidden while a search term and a
    category are set. *)
Lemma hiding_controls_keeps_filters_witness :
  Reachable JS.toLowerCaseAscii exampleConfig
  ∧ eraseFlags hiddenProps = eraseFlags (props exampleConfig)
  ∧ ∃ c' v v',
      step JS.toLowerCaseAscii exampleConfig (PropsChange hiddenProps) = JS.Normal (c', [])
      ∧ props c' = hiddenProps
      ∧ state c' = state exampleConfig
      ∧ Selects (λ l, TextMatches JS.toLowerCaseAscii (searchTerm (state exampleConfig)) l
                      ∧ CategoryMatches (filterCategory (state exampleConfig)) l)
          (elements (Props.locations hiddenProps)) (items (filteredLocations (state c')))
      ∧ render (props exampleConfig) (state exampleConfig) = JS.Normal v
      ∧ render (props c') (state c') = JS.Normal v'
      ∧ markers v' = markers v
      ∧ fitLocations v' = fitLocations v
      ∧ (is_Some (searchInput v') ↔ enableSearchOf hiddenProps = true)
      ∧ (is_Some (categorySelect v') ↔ enableFilterOf hiddenProps = true).
Proof.
  split; [exact exampleConfig_Reachable|]. split; [reflexivity|].
  exact (hiding_controls_keeps_filters JS.toLowerCaseAscii exampleConfig hiddenProps
           exampleConfig_Reachable eq_refl).
Defined.

(** C4 at the example: the camera after the effect ran on Shanghai and
    Beijing is what [fitBounds] makes of the smallest box around both. *)
Lemma bounds_fit_frames_visible_subset_witness :
  ∃ b, SmallestBox [shanghai; beijing] b
       ∧ applyCommands exampleFit (FitBoundsToLocations [shanghai; beijing]) exampleCamera
         = exampleFit (Some b) (50, 50)%Z exampleCamera.
Proof.
  exact (proj1 (proj2 (bounds_fit_frames_visible_subset JS.toLowerCaseAscii))
           [shanghai; beijing] exampleFit exampleCamera).
Defined.

(** * Further properties of the component *)

(** ** The filters as list operations *)

Lemma List_filter_sublist {A} (f : A → bool) (l : list A) :
  List.filter f l `sublist_of` l.
Proof.
  induction l as [|x l IH]; simpl; [constructor|].
  destruct (f x); by constructor.
Qed.

Lemma List_filter_sublist_mono {A} (f : A → bool) (l1 l2 : list A) :
  l1 `sublist_of` l2 → List.filter f l1 `sublist_of` List.filter f l2.
Proof.
  induction 1 as [|x l1 l2 _ IH|x l1 l2 _ IH]; simpl; [constructor|..];
    destruct (f x); by try constructor.
Qed.

Lemma List_filter_impl {A} (f g : A → bool) (l : list A) :
  (∀ x, f x = true → g x = true) → List.filter f l `sublist_of` List.filter g l.
Proof.
  intros Hfg. induction l as [|x l IH]; simpl; [constructor|].
  destruct (f x) eqn:Hf.
  - rewrite (Hfg x Hf). by constructor.
  - destruct (g x); by try constructor.
Qed.

Lemma List_filter_comm {A} (f g : A → bool) (l : list A) :
  List.filter f (List.filter g l) = List.filter g (List.filter f l).
Proof.
  induction l as [|x l IH]; simpl; [done|].
  destruct (g x) eqn:Hg, (f x) eqn:Hf; simpl; rewrite ?Hg, ?Hf, ?IH; done.
Qed.

Lemma List_filter_idem {A} (f : A → bool) (l : list A) :
  List.filter f (List.filter f l) = List.filter f l.
Proof.
  induction l as [|x l IH]; simpl; [done|].
  destruct (f x) eqn:Hf; simpl; rewrite ?Hf, ?IH; done.
Qed.

Lemma append_assoc (a b c : string) : (a +:+ b) +:+ c = a +:+ (b +:+ c).
Proof.
  induction a as [|ch a IH]; [done|].
  change (String ch ((a +:+ b) +:+ c) = String ch (a +:+ (b +:+ c))). by f_equal.
Qed.

Lemma Substring_trans a b s : Substring a b → Substring b s → Substring a s.
Proof.
  intros (pre' & post' & ->) (pre & post & ->).
  exists (pre +:+ pre'), (post' +:+ post). by rewrite !append_assoc.
Qed.

Section FilterAlgebra.
Variable toLowerCase : string → string.

Lemma applySearch_sublist t L : applySearch toLowerCase t L `sublist_of` L.
Proof. unfold applySearch. destruct (JS.truthy t); [apply List_filter_sublist | done]. Qed.

Lemma applyCategory_sublist c L : applyCategory c L `sublist_of` L.
Proof.
  unfold applyCategory. destruct (from_option JS.truthy false c);
    [apply List_filter_sublist | done].
Qed.

Lemma applyCategory_mono c L1 L2 :
  L1 `sublist_of` L2 → applyCategory c L1 `sublist_of` applyCategory c L2.
Proof.
  unfold applyCategory. destruct (from_option JS.truthy false c);
    [apply List_filter_sublist_mono | done].
Qed.

Lemma filterLocations_sublist L t c : filterLocations toLowerCase L t c `sublist_of` L.
Proof.
  unfold filterLocations. etrans; [apply applyCategory_sublist | apply applySearch_sublist].
Qed.

(** X1.  The filtered list is a sublist of the locations: it keeps their
    order and invents or repeats none; and every location is judged on its
    own, so the filter of a concatenation is the concatenation of the
    filters. *)
Theorem filter_keeps_order_and_splits (L1 L2 : list Location) (t : string)
    (c : option string) :
  filterLocations toLowerCase L1 t c `sublist_of` L1
  ∧ (length (filterLocations toLowerCase L1 t c) ≤ length L1)%nat
  ∧ filterLocations toLowerCase (L1 ++ L2) t c
    = filterLocations toLowerCase L1 t c ++ filterLocations toLowerCase L2 t c.
Proof.
  split_and!.
  - apply filterLocations_sublist.
  - apply sublist_length, filterLocations_sublist.
  - unfold filterLocations, applySearch, applyCategory.
    destruct (JS.truthy t), (from_option JS.truthy false c);
      by rewrite ?List.filter_app.
Qed.

(** X2.  The two filters commute, and filtering a filtered list again with
    the same term and category changes nothing. *)
Theorem filters_commute_and_are_idempotent (L : list Location) (t : string)
    (c : option string) :
  applyCategory c (applySearch toLowerCase t L)
  = applySearch toLowerCase t (applyCategory c L)
  ∧ filterLocations toLowerCase (filterLocations toLowerCase L t c) t c
    = filterLocations toLowerCase L t c.
Proof.
  unfold filterLocations, applySearch, applyCategory.
  destruct (JS.truthy t), (from_option JS.truthy false c); split; try done.
  - apply List_filter_comm.
  - rewrite (List_filter_comm (matchesSearch _ _) (λ loc, JS.strictEq _ _)).
    by rewrite !List_filter_idem.
  - apply List_filter_idem.
  - apply List_filter_idem.
Qed.

(** X3.  A search term whose lower-case form contains the lower-case form
    of another term shows no location the other term does not show: typing
    more never adds results. *)
Theorem longer_term_narrows (L : list Location) (t t' : string) (c : option string) :
  t' ≠ "" →
  Substring (toLowerCase t) (toLowerCase t') →
  filterLocations toLowerCase L t' c `sublist_of` filterLocations toLowerCase L t c.
Proof.
  intros Ht' Hsub. unfold filterLocations. apply applyCategory_mono.
  unfold applySearch. rewrite (proj2 (truthy_spec t') Ht').
  destruct (JS.truthy t); [|apply List_filter_sublist].
  apply List_filter_impl. intros l. rewrite !matchesSearch_spec.
  intros (field & Hin & Hfield). exists field. split; [done|].
  by apply Substring_trans with (toLowerCase t').
Qed.

(** X4.  The box the map is asked to frame for a filtered list lies inside
    the box around all locations: no filter widens the framed area, and a
    filter that leaves nothing asks nothing of the map. *)
Theorem filtering_never_widens_the_frame (L : list Location) (t : string)
    (c : option string) :
  match FitBoundsToLocations (filterLocations toLowerCase L t c) with
  | [] => filterLocations toLowerCase L t c = []
  | cmd :: rest =>
      rest = []
      ∧ ∃ b bL, cmd = FitBounds (Some b) (50, 50)%Z
                ∧ SmallestBox (filterLocations toLowerCase L t c) b
                ∧ latLngBounds (coordinatesOf <$> L) = Some bL
                ∧ Encloses bL b
  end.
Proof.
  pose proof (filterLocations_sublist L t c) as Hsub.
  pose proof (FitBoundsToLocations_Frames (filterLocations toLowerCase L t c)) as HV.
  destruct (filterLocations toLowerCase L t c) as [|l V] eqn:HVeq; [by rewrite HV|].
  destruct HV as (b & -> & Hin & Hmin). split; [done|].
  destruct L as [|l0 L]; [by apply sublist_nil_r in Hsub|].
  destruct (latLngBounds_smallest (coordinatesOf l0) (coordinatesOf <$> L))
    as (bL & HbL & HinL & _).
  exists b, bL. split_and!; [done|done|done|].
  apply Hmin. intros l' Hl'. apply HinL. rewrite <- fmap_cons.
  apply list_elem_of_fmap_2. by eapply elem_of_sublist.
Qed.

End FilterAlgebra.

(** ** Runs of the component *)

Lemma FitBoundsToLocations_valid V : Forall ValidFit (FitBoundsToLocations V).
Proof.
  pose proof (FitBoundsToLocations_Frames V) as HV. destruct V as [|l V].
  - rewrite HV. constructor.
  - destruct HV as (b & -> & _). repeat constructor. by exists b.
Qed.

Lemma runFitEffect_valid c : Forall ValidFit (runFitEffect c).2.
Proof.
  unfold runFitEffect. destruct (decide _); simpl;
    [constructor | apply FitBoundsToLocations_valid].
Qed.

Section Runs.
Variable toLowerCase : string → string.

Lemma effects_style_valid c :
  currentMapStyle (state (effects toLowerCase c).1) = currentMapStyle (state c)
  ∧ Forall ValidFit (effects toLowerCase c).2.
Proof.
  unfold effects.
  destruct (runFitEffect_frame c) as (_ & Hs1 & _).
  pose proof (runFitEffect_valid c) as Hv1.
  destruct (runFitEffect c) as [c1 cmds1]. simpl in Hs1, Hv1.
  pose proof (runFilterEffect_style toLowerCase c1) as Hs2.
  destruct (runFilterEffect toLowerCase c1) as [c2 stored]. simpl in Hs2.
  destruct stored; simpl; [|by rewrite Hs2, Hs1].
  destruct (runFitEffect_frame c2) as (_ & Hs3 & _).
  pose proof (runFitEffect_valid c2) as Hv3.
  destruct (runFitEffect c2) as [c3 cmds3]. simpl in *.
  split; [by rewrite Hs3, Hs2, Hs1 | by apply Forall_app].
Qed.

Lemma step_defined c e :
  is_Some (currentMapStyle (state c)) →
  ∃ c' cmds, step toLowerCase c e = JS.Normal (c', cmds)
             ∧ is_Some (currentMapStyle (state c'))
             ∧ Forall ValidFit cmds.
Proof.
  intros Hst. destruct (handle_frame c e) as (_ & _ & _ & _ & Hst0 & _).
  unfold step. rewrite commit_defined by auto.
  destruct (effects_style_valid (handle c e)) as [Hs Hv].
  destruct (effects toLowerCase (handle c e)) as [c' cmds]. simpl in *.
  exists c', cmds. rewrite Hs. auto.
Qed.

Lemma runFrom_defined c events :
  is_Some (currentMapStyle (state c)) →
  ∃ c' cmds, runFrom toLowerCase c events = JS.Normal (c', cmds)
             ∧ is_Some (currentMapStyle (state c'))
             ∧ Forall ValidFit cmds.
Proof.
  revert c. induction events as [|e events IH]; intros c Hst.
  - exists c, []. by split_and!.
  - destruct (step_defined c e Hst) as (c1 & cmds1 & Hstep & Hst1 & Hv1).
    destruct (IH c1 Hst1) as (c2 & cmds2 & Hrun & Hst2 & Hv2).
    exists c2, (cmds1 ++ cmds2). cbn [runFrom]. rewrite Hstep. simpl. rewrite Hrun. simpl.
    split_and!; [done|done|by apply Forall_app].
Qed.

(** X5.  The component throws in one case only: with an empty list of
    styles the mount throws, whatever events were to follow; with any other
    list the mount and every sequence of events, changes of the props
    included, go through and end in a state that renders. *)
Theorem only_empty_styles_throw (p : TravelMapProps) (events : list Event) :
  match mapStylesOf p with
  | [] =>
      run toLowerCase p events
      = JS.TypeError "Cannot read properties of undefined (reading 'name')"
  | _ :: _ =>
      ∃ c cmds v, run toLowerCase p events = JS.Normal (c, cmds)
                  ∧ render (props c) (state c) = JS.Normal v
  end.
Proof.
  unfold run. destruct (mapStylesOf p) as [|st sts] eqn:Hsts.
  - by rewrite mount_undefined.
  - destruct (mount_settled toLowerCase p st) as (c0 & -> & Hset & _);
      [by rewrite Hsts|].
    destruct Hset as (_ & _ & _ & _ & _ & Hst0). simpl.
    destruct (runFrom_defined c0 events Hst0) as (c & cmds & -> & Hst & _). simpl.
    destruct (render_is_Some (props c) (state c) Hst) as [v Hv]. eauto.
Qed.

(** X6.  Every command the component gives the map, at the mount and after
    any events, is a [fitBounds] on a box that has corners, with the padding
    of 50 pixels: the map is never asked to fit bounds made of no point. *)
Theorem every_command_has_bounds (p : TravelMapProps) (events : list Event) :
  match run toLowerCase p events with
  | JS.Normal (c, cmds) => Forall ValidFit cmds
  | JS.TypeError _ => mapStylesOf p = []
  end.
Proof.
  unfold run. destruct (mapStylesOf p) as [|st sts] eqn:Hsts.
  - by rewrite mount_undefined.
  - destruct (mount_settled toLowerCase p st) as (c0 & -> & Hset & _);
      [by rewrite Hsts|].
    destruct Hset as (_ & _ & _ & _ & _ & Hst0). simpl.
    destruct (runFrom_defined c0 events Hst0) as (c & cmds & -> & _ & Hv). simpl.
    apply Forall_app. split; [|done].
    apply Forall_app. split; apply FitBoundsToLocations_valid.
Qed.

(** X7.  When the identifiers of the locations are pairwise different, so
    are the keys of the markers of every render; the keys are the
    identifiers of the visible locations, in the order of the list, one
    marker for each. *)
Theorem marker_keys_are_unique (c : Config) :
  Reachable toLowerCase c →
  NoDup (Location.id <$> elements (Props.locations (props c))) →
  ∃ v, render (props c) (state c) = JS.Normal v
       ∧ markerKey <$> markers v = Location.id <$> items (filteredLocations (state c))
       ∧ position <$> markers v
         = Location.coordinates <$> items (filteredLocations (state c))
       ∧ (markerKey <$> markers v)
           `sublist_of` (Location.id <$> elements (Props.locations (props c)))
       ∧ NoDup (markerKey <$> markers v).
Proof.
  intros Hr Hnd. destruct (Reachable_Settled _ c Hr) as (_ & _ & Hitems & _ & _ & [st Hst]).
  destruct (render_defined (props c) (state c) st Hst)
    as (v & Hv & _ & _ & _ & _ & Hm & _).
  assert (markerKey <$> markers v = Location.id <$> items (filteredLocations (state c)))
    as Hkeys by (rewrite Hm, <- list_fmap_compose; done).
  assert ((markerKey <$> markers v)
            `sublist_of` (Location.id <$> elements (Props.locations (props c)))) as Hsub.
  { rewrite Hkeys, Hitems. apply fmap_sublist, filterLocations_sublist. }
  exists v. split_and!; [done|done| |done|by eapply sublist_NoDup].
  rewrite Hm, <- list_fmap_compose. done.
Qed.

(** X8.  A click on a marker stores its identifier and does nothing else:
    the rest of the state and the props stay, the map gets no command, and
    the render is the same, as no part of it reads the selected
    identifier. *)
Theorem marker_click_selects_only (c : Config) (id : Z) :
  Reachable toLowerCase c →
  step toLowerCase c (MarkerClick id)
  = JS.Normal (withState c (setSelectedLocation (Some id) (state c)), [])
  ∧ (∀ p s selected, render p (setSelectedLocation selected s) = render p s).
Proof.
  intros Hr. split; [|done].
  destruct (Reachable_Settled _ c Hr) as (Hfd & Hft & _ & Hfresh & _ & Hst).
  unfold step. rewrite commit_defined by done.
  rewrite effects_fit_settled by done. by rewrite decide_True.
Qed.

End Runs.

(** ** Events and changes of the props *)

Lemma List_filter_none {A} (f : A → bool) (l : list A) :
  (∀ x, x ∈ l → f x = false) → List.filter f l = [].
Proof.
  induction l as [|x l IH]; intros Hf; simpl; [done|].
  rewrite (Hf x) by by left. apply IH. intros y Hy. apply Hf. by right.
Qed.

Lemma List_find_first {A} (f : A → bool) (pre post : list A) (x : A) :
  (∀ y, y ∈ pre → f y = false) → f x = true →
  List.find f (pre ++ x :: post) = Some x.
Proof.
  induction pre as [|y pre IH]; intros Hpre Hx; simpl; [by rewrite Hx|].
  rewrite (Hpre y) by by left. apply IH; [|done]. intros z Hz. apply Hpre. by right.
Qed.

Lemma List_find_missing {A} (f : A → bool) (l : list A) :
  (∀ y, y ∈ l → f y = false) → List.find f l = None.
Proof.
  induction l as [|y l IH]; intros Hl; simpl; [done|].
  rewrite (Hl y) by by left. apply IH. intros z Hz. apply Hl. by right.
Qed.

Lemma categoryOptions_elem_of (L : list Location) (c : string) :
  c ∈ categoryOptions L ↔ c ≠ "" ∧ ∃ l, l ∈ L ∧ Location.category l = Some c.
Proof.
  destruct (arrayFromSet_spec (Location.category <$> L)) as [Hin _].
  unfold categoryOptions. rewrite list_elem_of_omap. split.
  - intros (x & Hx & [-> Hc]%isCategory_Some). split; [done|].
    apply Hin, list_elem_of_fmap in Hx as (l & Hl & Hlin). eauto.
  - intros (Hc & l & Hl & Hcat). exists (Some c). split.
    + apply Hin. rewrite <- Hcat. by apply list_elem_of_fmap_2.
    + by apply isCategory_Some.
Qed.

Section Events.
Variable toLowerCase : string → string.

(** A step from a settled configuration, read field by field. *)
Lemma step_fields c e :
  Settled toLowerCase c → Coherent c e →
  ∃ c' cmds,
    step toLowerCase c e = JS.Normal (c', cmds)
    ∧ Settled toLowerCase c'
    ∧ props c' = props (handle c e)
    ∧ selectedLocation (state c') = selectedLocation (state (handle c e))
    ∧ currentMapStyle (state c') = currentMapStyle (state (handle c e))
    ∧ searchTerm (state c') = searchTerm (state (handle c e))
    ∧ filterCategory (state c') = filterCategory (state (handle c e))
    ∧ if decide (depsOf (handle c e) = depsOf c)
      then filteredLocations (state c') = filteredLocations (state c) ∧ cmds = []
      else cmds = FitBoundsToLocations (items (filteredLocations (state c'))).
Proof.
  intros Hset Hco.
  destruct (step_settled toLowerCase c e Hset Hco)
    as (c' & cmds & Hstep & Hset' & Hprops & Hstate & Hcmds).
  exists c', cmds. rewrite Hstate. by split_and!.
Qed.

(** X9.  New props replace the old ones and leave the view state alone:
    the search term, the selected category, the selected marker and the
    current style stay, also when the new [mapStyles] no longer holds that
    style.  The visible subset is the filter of the new locations; it is
    stored anew, and the map fitted to it, exactly when the array of
    locations is another object. *)
Theorem props_change_keeps_view_state (c : Config) (p : TravelMapProps) :
  Reachable toLowerCase c →
  Coherent c (PropsChange p) →
  ∃ c' cmds,
    step toLowerCase c (PropsChange p) = JS.Normal (c', cmds)
    ∧ props c' = p
    ∧ selectedLocation (state c') = selectedLocation (state c)
    ∧ currentMapStyle (state c') = currentMapStyle (state c)
    ∧ searchTerm (state c') = searchTerm (state c)
    ∧ filterCategory (state c') = filterCategory (state c)
    ∧ items (filteredLocations (state c'))
      = filterLocations toLowerCase (elements (Props.locations p))
          (searchTerm (state c)) (filterCategory (state c))
    ∧ if decide (arrayId (Props.locations p) = arrayId (Props.locations (props c)))
      then filteredLocations (state c') = filteredLocations (state c) ∧ cmds = []
      else cmds = FitBoundsToLocations (items (filteredLocations (state c'))).
Proof.
  intros Hr Hco.
  destruct (step_fields c (PropsChange p) (Reachable_Settled _ c Hr) Hco)
    as (c' & cmds & Hstep & Hset' & Hprops & Hsel & Hsty & Hterm & Hcat & Hcmds).
  simpl in Hprops, Hsel, Hsty, Hterm, Hcat.
  destruct Hset' as (_ & _ & Hitems & _).
  exists c', cmds. split_and!; try done.
  - by rewrite Hitems, Hprops, Hterm, Hcat.
  - unfold depsOf in Hcmds. simpl in Hcmds.
    destruct (decide (arrayId (Props.locations p) = _)) as [Heq|Hne].
    + rewrite decide_True in Hcmds by by rewrite Heq. done.
    + rewrite decide_False in Hcmds by (intros [= ?]; done). done.
Qed.

(** X10.  The selected category is not reset when the locations are
    replaced: if no location of the new list has it, the component shows no
    marker and leaves the camera where it is, while the category, which the
    select no longer offers, stays selected. *)
Theorem stale_category_hides_everything (c : Config) (p : TravelMapProps)
    (cat : string) :
  Reachable toLowerCase c →
  filterCategory (state c) = Some cat →
  arrayId (Props.locations p) ≠ arrayId (Props.locations (props c)) →
  (∀ l, l ∈ elements (Props.locations p) → Location.category l ≠ Some cat) →
  ∃ c' v,
    step toLowerCase c (PropsChange p) = JS.Normal (c', [])
    ∧ filterCategory (state c') = Some cat
    ∧ items (filteredLocations (state c')) = []
    ∧ render (props c') (state c') = JS.Normal v
    ∧ markers v = []
    ∧ cat ∉ categoryOptions (elements (Props.locations p)).
Proof.
  intros Hr Hcat Hid Hnone.
  assert (Coherent c (PropsChange p)) as Hco by (by intros ?).
  destruct (step_fields c (PropsChange p) (Reachable_Settled _ c Hr) Hco)
    as (c' & cmds & Hstep & Hset' & Hprops & _ & _ & Hterm & Hcat' & Hcmds).
  simpl in Hprops, Hterm, Hcat'.
  rewrite decide_False in Hcmds by (unfold depsOf; simpl; intros [= ?]; done).
  destruct (Reachable_Settled _ c Hr) as (_ & _ & _ & _ & Hne & _).
  destruct Hset' as (_ & _ & Hitems & _ & _ & [st Hst]).
  assert (items (filteredLocations (state c')) = []) as Hempty.
  { rewrite Hitems, Hprops, Hcat', Hcat. unfold filterLocations, applyCategory. simpl.
    destruct (JS.truthy cat) eqn:Htruthy; [|apply truthy_false in Htruthy; congruence].
    apply List_filter_none. intros l Hl. unfold JS.strictEq.
    apply bool_decide_eq_false. apply Hnone.
    eapply elem_of_sublist; [exact Hl | apply applySearch_sublist]. }
  destruct (render_defined (props c') (state c') st Hst)
    as (v & Hv & _ & _ & _ & _ & Hm & _).
  exists c', v. rewrite Hcmds, Hempty in Hstep. split_and!; try done.
  - by rewrite Hcat'.
  - by rewrite Hm, Hempty.
  - rewrite categoryOptions_elem_of. intros (_ & l & Hl & Hlcat). by apply (Hnone l).
Qed.

(** X11.  The controls show what was entered and filter by it.  After an
    input in the search box the box holds that text and the visible subset
    is the filter for it under the category that was selected; after a
    choice in the category select the select holds the chosen value and the
    visible subset is the filter for it under the term that was entered,
    the entry for all categories, whose value is empty, lifting the
    category filter. *)
Theorem controls_show_what_was_entered (c : Config) (value : string) :
  Reachable toLowerCase c →
  (∃ c' cmds v,
     step toLowerCase c (SearchChange value) = JS.Normal (c', cmds)
     ∧ searchTerm (state c') = value
     ∧ filterCategory (state c') = filterCategory (state c)
     ∧ items (filteredLocations (state c'))
       = filterLocations toLowerCase (elements (Props.locations (props c)))
           value (filterCategory (state c))
     ∧ render (props c') (state c') = JS.Normal v
     ∧ inputValue <$> searchInput v
       = if enableSearchOf (props c) then Some value else None)
  ∧ (∃ c' cmds v,
       step toLowerCase c (FilterChange value) = JS.Normal (c', cmds)
       ∧ searchTerm (state c') = searchTerm (state c)
       ∧ filterCategory (state c') = (if decide (value = "") then None else Some value)
       ∧ items (filteredLocations (state c'))
         = applyCategory (if decide (value = "") then None else Some value)
             (applySearch toLowerCase (searchTerm (state c))
                (elements (Props.locations (props c))))
       ∧ (value = "" →
          items (filteredLocations (state c'))
          = applySearch toLowerCase (searchTerm (state c))
              (elements (Props.locations (props c))))
       ∧ render (props c') (state c') = JS.Normal v
       ∧ selectValue <$> categorySelect v
         = if enableFilterOf (props c) then Some value else None).
Proof.
  intros Hr. pose proof (Reachable_Settled _ c Hr) as Hset. split.
  - destruct (step_fields c (SearchChange value) Hset I)
      as (c' & cmds & Hstep & Hset' & Hprops & _ & _ & Hterm & Hcat & _).
    simpl in Hprops, Hterm, Hcat.
    destruct Hset' as (_ & _ & Hitems & _ & _ & [st Hst]).
    destruct (render_defined (props c') (state c') st Hst)
      as (v & Hv & _ & _ & _ & _ & _ & _ & _ & _ & Hsearch & _).
    exists c', cmds, v. split_and!; try done.
    + by rewrite Hitems, Hprops, Hterm, Hcat.
    + rewrite Hsearch, Hprops, Hterm. by destruct (enableSearchOf (props c)).
  - destruct (step_fields c (FilterChange value) Hset I)
      as (c' & cmds & Hstep & Hset' & Hprops & _ & _ & Hterm & Hcat & _).
    simpl in Hprops, Hterm, Hcat.
    assert ((if JS.truthy value then Some value else None)
            = (if decide (value = "") then None else Some value)) as Hvalue.
    { destruct (decide (value = "")) as [->|Hne]; [done|].
      by rewrite (proj2 (truthy_spec value) Hne). }
    rewrite Hvalue in Hcat.
    destruct Hset' as (_ & _ & Hitems & _ & _ & [st Hst]).
    destruct (render_defined (props c') (state c') st Hst)
      as (v & Hv & _ & _ & _ & _ & _ & _ & _ & _ & _ & _ & Hselect).
    exists c', cmds, v. split_and!; try done.
    + by rewrite Hitems, Hprops, Hterm, Hcat.
    + intros ->. by rewrite Hitems, Hprops, Hterm, Hcat.
    + rewrite Hselect, Hprops, Hcat. destruct (enableFilterOf (props c)); [|done].
      by destruct (decide (value = "")) as [->|].
Qed.

(** X12.  An input in the search box and a choice in the category select
    can come in either order: both orders end with the same props, the same
    term, category, style and selected marker, and the same visible
    subset. *)
Theorem search_and_category_commute (c : Config) (t x : string) :
  Reachable toLowerCase c →
  ∃ c1 cmds1 c2 cmds2,
    runFrom toLowerCase c [SearchChange t; FilterChange x] = JS.Normal (c1, cmds1)
    ∧ runFrom toLowerCase c [FilterChange x; SearchChange t] = JS.Normal (c2, cmds2)
    ∧ props c1 = props c2
    ∧ searchTerm (state c1) = searchTerm (state c2)
    ∧ filterCategory (state c1) = filterCategory (state c2)
    ∧ currentMapStyle (state c1) = currentMapStyle (state c2)
    ∧ selectedLocation (state c1) = selectedLocation (state c2)
    ∧ items (filteredLocations (state c1)) = items (filteredLocations (state c2)).
Proof.
  intros Hr. pose proof (Reachable_Settled _ c Hr) as Hset.
  destruct (step_fields c (SearchChange t) Hset I)
    as (a1 & k1 & Ha1 & Hseta1 & Hpa1 & Hsela1 & Hstya1 & Hta1 & Hca1 & _).
  destruct (step_fields a1 (FilterChange x) Hseta1 I)
    as (a2 & k2 & Ha2 & Hseta2 & Hpa2 & Hsela2 & Hstya2 & Hta2 & Hca2 & _).
  destruct (step_fields c (FilterChange x) Hset I)
    as (b1 & j1 & Hb1 & Hsetb1 & Hpb1 & Hselb1 & Hstyb1 & Htb1 & Hcb1 & _).
  destruct (step_fields b1 (SearchChange t) Hsetb1 I)
    as (b2 & j2 & Hb2 & Hsetb2 & Hpb2 & Hselb2 & Hstyb2 & Htb2 & Hcb2 & _).
  simpl in *.
  exists a2, (k1 ++ (k2 ++ [])), b2, (j1 ++ (j2 ++ [])).
  rewrite Ha1, Hb1. simpl. rewrite Ha2, Hb2. simpl.
  assert (props a2 = props b2) as Hp by congruence.
  assert (searchTerm (state a2) = searchTerm (state b2)) as Ht by congruence.
  assert (filterCategory (state a2) = filterCategory (state b2)) as Hc by congruence.
  split_and!; try done; try congruence.
  destruct Hseta2 as (_ & _ & -> & _). destruct Hsetb2 as (_ & _ & -> & _).
  by rewrite Hp, Ht, Hc.
Qed.

(** X13.  The handler of the style select looks the chosen name up in
    [mapStyles]: a name no style has leaves the whole configuration as it
    is; otherwise the first style of the list with that name becomes the
    current one, also when a later style has the same name. *)
Theorem style_select_takes_first_match (c : Config) (value : string) :
  Reachable toLowerCase c →
  ((∀ style, style ∈ mapStylesOf (props c) → MapStyle.name style ≠ value) →
   step toLowerCase c (StyleChange value) = JS.Normal (c, []))
  ∧ (∀ pre style post,
       mapStylesOf (props c) = pre ++ style :: post →
       MapStyle.name style = value →
       (∀ earlier, earlier ∈ pre → MapStyle.name earlier ≠ value) →
       step toLowerCase c (StyleChange value)
       = JS.Normal (withState c (setCurrentMapStyle (Some style) (state c)), [])).
Proof.
  intros Hr. destruct (Reachable_Settled _ c Hr) as (Hfd & Hft & _ & Hfresh & _ & Hst).
  split.
  - intros Hnone. unfold step. cbn [handle].
    rewrite List_find_missing by (intros y Hy; apply String.eqb_neq; auto).
    rewrite commit_defined by done. rewrite effects_fit_settled by done.
    by rewrite decide_True.
  - intros pre style post Hstyles Hname Hpre. unfold step. cbn [handle].
    rewrite Hstyles, (List_find_first _ pre post style);
      [|intros y Hy; apply String.eqb_neq; auto|by apply String.eqb_eq].
    rewrite commit_defined by (simpl; eauto). rewrite effects_fit_settled by done.
    by rewrite decide_True.
Qed.

Lemma runFrom_style_offered c events :
  Settled toLowerCase c →
  forallb (λ e, negb (isPropsChange e)) events = true →
  (∃ st, currentMapStyle (state c) = Some st ∧ st ∈ mapStylesOf (props c)) →
  ∃ c' cmds st,
    runFrom toLowerCase c events = JS.Normal (c', cmds)
    ∧ props c' = props c
    ∧ currentMapStyle (state c') = Some st
    ∧ st ∈ mapStylesOf (props c).
Proof.
  revert c. induction events as [|e events IH]; intros c Hset Hev (st & Hst & Hin).
  - exists c, [], st. by split_and!.
  - cbn [forallb] in Hev. apply andb_true_iff in Hev as [He Hev].
    assert (Coherent c e) as Hco by (by destruct e).
    destruct (step_fields c e Hset Hco)
      as (c1 & cmds1 & Hstep & Hset1 & Hprops & _ & Hsty & _).
    assert (props (handle c e) = props c
            ∧ ∃ st1, currentMapStyle (state (handle c e)) = Some st1
                     ∧ st1 ∈ mapStylesOf (props c)) as [Hp (st1 & Hst1 & Hin1)].
    { destruct e as [v|v|v|i|p]; cbn [handle isPropsChange negb] in *.
      - split; [done|]. by exists st.
      - split; [done|]. by exists st.
      - destruct (List.find _ _) as [found|] eqn:Hfind; [|split; [done|by exists st]].
        split; [done|]. exists found. split; [done|].
        apply List.find_some in Hfind as [Hfound _]. by apply list_elem_of_In.
      - split; [done|]. by exists st.
      - discriminate He. }
    destruct (IH c1 Hset1 Hev) as (c2 & cmds2 & st2 & Hrun & Hp2 & Hst2 & Hin2).
    { exists st1. rewrite Hsty, Hprops, Hp. done. }
    exists c2, (cmds1 ++ cmds2), st2. cbn [runFrom]. rewrite Hstep. simpl.
    rewrite Hrun. simpl. rewrite Hp2, Hprops, Hp in *. by split_and!.
Qed.

(** X14.  As long as the props do not change, the current style is one of
    [mapStyles]: after the mount and any inputs, choices and clicks the
    tile layer shows a style of the list, and the value of the style select
    is the name of one of its options. *)
Theorem current_style_is_offered (p : TravelMapProps) (events : list Event) :
  forallb (λ e, negb (isPropsChange e)) events = true →
  match mapStylesOf p with
  | [] =>
      run toLowerCase p events
      = JS.TypeError "Cannot read properties of undefined (reading 'name')"
  | _ :: _ =>
      ∃ c cmds st v,
        run toLowerCase p events = JS.Normal (c, cmds)
        ∧ props c = p
        ∧ currentMapStyle (state c) = Some st
        ∧ st ∈ mapStylesOf p
        ∧ render (props c) (state c) = JS.Normal v
        ∧ selectValue (styleSelect v) ∈ (optionValue <$> options (styleSelect v))
  end.
Proof.
  intros Hev. unfold run. destruct (mapStylesOf p) as [|st0 sts] eqn:Hsts.
  - by rewrite mount_undefined.
  - destruct (mount_settled toLowerCase p st0) as (c0 & -> & Hset & Hp0 & Hs0);
      [by rewrite Hsts|]. simpl.
    destruct (runFrom_style_offered c0 events Hset Hev)
      as (c & cmds & st & -> & Hp & Hst & Hin).
    { exists st0. rewrite Hs0, Hp0, Hsts. split; [done | by left]. }
    simpl. rewrite Hp0 in Hp, Hin.
    destruct (render_defined (props c) (state c) st Hst)
      as (v & Hv & _ & _ & Hval & Hopts & _).
    eexists c, _, st, v. split_and!; try done; [by rewrite <- Hsts|].
    rewrite Hval, Hopts, Hp, <- list_fmap_compose.
    by apply (list_elem_of_fmap_2 (λ style, MapStyle.name style)).
Qed.

End Events.

(** ** Icons and popups *)

Lemma categoryColors_keys (a : string) :
  a ∈ dom categoryColors
  ↔ a = "居住" ∨ a = "旅行" ∨ a = "商务" ∨ a = "路过" ∨ a = "default".
Proof.
  unfold categoryColors. rewrite dom_list_to_map_L, elem_of_list_to_set.
  cbn [fmap list_fmap fst]. rewrite !elem_of_cons, elem_of_nil. tauto.
Qed.

Lemma lookupColor_undefined (c : string) :
  c ∉ dom categoryColors → c ∉ objectPrototypeKeys → lookupColor c = None.
Proof.
  intros Hown Hinherited. unfold lookupColor, inheritedText.
  rewrite (proj1 (not_elem_of_dom categoryColors c) Hown).
  destruct (decide (c = "constructor")) as [->|_];
    [exfalso; apply Hinherited; set_solver|].
  destruct (decide (c = "__proto__")) as [->|_];
    [exfalso; apply Hinherited; set_solver|].
  by rewrite decide_False.
Qed.

(** X15.  The icon of a marker.  A location without a category gets the
    icon of the key [default]; the five keys of the colour table give five
    different icons; a category that is no key of the table, and no name
    the table inherits from [Object.prototype], gets the icon of [default],
    the empty category among them; a category that is such an inherited
    name gets an icon whose colour is the text of the inherited value, not
    the default colour; and every icon has the same class, size and
    anchor. *)
Theorem icon_follows_colour_table :
  createIcon None = createIcon (Some "default")
  ∧ (∀ a b, a ∈ dom categoryColors → b ∈ dom categoryColors →
            createIcon (Some a) = createIcon (Some b) → a = b)
  ∧ (∀ c, c ∉ dom categoryColors → c ∉ objectPrototypeKeys →
          createIcon (Some c) = createIcon None)
  ∧ createIcon (Some "") = createIcon None
  ∧ (∀ c, c ∈ objectPrototypeKeys →
          ∃ text, inheritedText c = Some text
                  ∧ html (createIcon (Some c))
                    = "<div style=" +:+ dq +:+ "background-color: " +:+ text
                      +:+ "; width: 12px; height: 12px; border-radius: 50%; border: 2px solid #FFF;"
                      +:+ dq +:+ "></div>"
                  ∧ createIcon (Some c) ≠ createIcon None)
  ∧ (∀ c, className (createIcon c) = "custom-div-icon"
          ∧ iconSize (createIcon c) = (16, 16)%Z
          ∧ iconAnchor (createIcon c) = (8, 8)%Z).
Proof.
  split_and!; [reflexivity| | |reflexivity| |done].
  - intros a b Ha%categoryColors_keys Hb%categoryColors_keys.
    destruct Ha as [->|[->|[->|[->| ->]]]], Hb as [->|[->|[->|[->| ->]]]];
      intros H; try reflexivity; vm_compute in H; discriminate H.
  - intros c Hown Hinherited.
    change (createIcon (Some c))
      with (divIcon "custom-div-icon"
              ("<div style=" +:+ dq +:+ "background-color: "
               +:+ interpolate (orElse (lookupColor c) (lookupColor "default"))
               +:+ "; width: 12px; height: 12px; border-radius: 50%; border: 2px solid #FFF;"
               +:+ dq +:+ "></div>")
              (16, 16)%Z (8, 8)%Z).
    by rewrite (lookupColor_undefined c Hown Hinherited).
  - intros c Hc. unfold objectPrototypeKeys in Hc.
    rewrite !elem_of_cons, elem_of_nil in Hc.
    destruct Hc as [->|[->|[->|[->|[->|[->|[->|[->|[->|[->|[->|[->|[]]]]]]]]]]]]];
      (eexists; split; [reflexivity|]; split; [reflexivity|]);
      intros H; vm_compute in H; discriminate H.
Qed.

(** X16.  The rating line of the popup at its edges: a location without a
    rating has none; a rating of zero is shown as the number itself, with
    no stars; every other rating is shown as the five stars, all of them
    empty when the rating is negative. *)
Theorem rating_line_edges (language : Language) (l : Location) :
  match Location.rating l with
  | None => ratingLine (renderPopup language l) = NoRating
  | Some r =>
      (r == 0 → ratingLine (renderPopup language l) = RatingNumber r)
      ∧ (¬ r == 0 →
         ratingLine (renderPopup language l) = RatingStars (renderRating (Some r)))
      ∧ ((r < 0)%Q → filledStars (renderRating (Some r)) = 0%nat)
  end.
Proof.
  unfold renderPopup. cbn [ratingLine]. destruct (Location.rating l) as [r|]; [|done].
  pose proof (truthyNum_spec r) as Ht. destruct (JS.truthyNum r).
  - split_and!; [intros H0; by apply Ht in H0 | done |].
    intros Hneg. apply Nat2Z.inj. rewrite filledStars_ceiling.
    assert (Qceiling r ≤ 0)%Z; [|lia].
    rewrite <- (Qceiling_Z 0). apply Qceiling_resp_le. by apply Qlt_le_weak.
  - split_and!; [done | intros Hne; apply Ht in Hne; done |].
    intros Hneg. exfalso. assert (r == 0) as H0.
    { destruct (Qeq_dec r 0) as [|Hne]; [done|]. apply Ht in Hne. done. }
    rewrite H0 in Hneg. by apply Qlt_irrefl in Hneg.
Qed.

(** X17.  The popup.  The heading and the paragraph are the name and the
    description in the active language; the image, the category line and
    the link are there exactly when the field is a string that is not
    empty; the image carries the heading as its alternative text; and the
    date, the image source, the category line, the rating line and the
    link target are the same in both languages. *)
Theorem popup_follows_language_and_fields (l : Location) :
  heading (renderPopup zh l) = Location.name l
  ∧ heading (renderPopup en l) = Location.nameEn l
  ∧ paragraph (renderPopup zh l) = Location.description l
  ∧ paragraph (renderPopup en l) = Location.descriptionEn l
  ∧ (∀ language,
       visitDateLine (renderPopup language l) = Location.visitDate l
       ∧ (∀ image, thumbnail (renderPopup language l) = Some image
                   ↔ Location.image l = Some (src image) ∧ src image ≠ ""
                     ∧ alt image = heading (renderPopup language l))
       ∧ (∀ category, categoryLine (renderPopup language l) = Some category
                      ↔ Location.category l = Some category ∧ category ≠ "")
       ∧ (∀ link, blogLink (renderPopup language l) = Some link
                  → Location.blogUrl l = Some (href link) ∧ href link ≠ "")
       ∧ (is_Some (blogLink (renderPopup language l))
          ↔ ∃ url, Location.blogUrl l = Some url ∧ url ≠ ""))
  ∧ src <$> thumbnail (renderPopup zh l) = src <$> thumbnail (renderPopup en l)
  ∧ categoryLine (renderPopup zh l) = categoryLine (renderPopup en l)
  ∧ ratingLine (renderPopup zh l) = ratingLine (renderPopup en l)
  ∧ href <$> blogLink (renderPopup zh l) = href <$> blogLink (renderPopup en l).
Proof.
  split_and!; try reflexivity.
  - intros language. unfold renderPopup.
    cbn [visitDateLine thumbnail categoryLine blogLink heading].
    split_and!; [done| | | |].
    + intros [s a]. unfold whenTruthy. cbn [src alt].
      destruct (Location.image l) as [i|]; [|split; [done | intros [? _]; done]].
      destruct (JS.truthy i) eqn:Hi.
      * apply truthy_spec in Hi. split.
        -- intros [= <- <-]. by split_and!.
        -- intros ([= <-] & _ & ->). done.
      * apply truthy_false in Hi. subst i.
        split; [done | intros ([= <-] & ? & _); done].
    + intros category. unfold whenTruthy.
      destruct (Location.category l) as [s|]; [|split; [done | intros [? _]; done]].
      destruct (JS.truthy s) eqn:Hs.
      * apply truthy_spec in Hs. split; [intros [= <-]; done | intros [[= <-] _]; done].
      * apply truthy_false in Hs. subst s.
        split; [done | intros [[= <-] ?]; done].
    + intros link. unfold whenTruthy. destruct (Location.blogUrl l) as [u|]; [|done].
      destruct (JS.truthy u) eqn:Hu; [|done].
      apply truthy_spec in Hu. by intros [= <-].
    + unfold whenTruthy. destruct (Location.blogUrl l) as [u|].
      * destruct (JS.truthy u) eqn:Hu.
        -- apply truthy_spec in Hu. split; [eauto | eauto].
        -- apply truthy_false in Hu. subst u.
           split; [by intros [? ?] | intros (url & [= <-] & ?); done].
      * split; [by intros [? ?] | intros (url & ? & _); done].
  - unfold renderPopup, whenTruthy. cbn [thumbnail].
    destruct (Location.image l) as [i|]; [|done]. by destruct (JS.truthy i).
  - unfold renderPopup, whenTruthy. cbn [blogLink].
    destruct (Location.blogUrl l) as [u|]; [|done]. by destruct (JS.truthy u).
Qed.

Section Repeats.
Variable toLowerCase : string → string.

(** X18.  Repeating what is already there changes nothing and leaves the
    camera alone: the same text in the search box, the selected category
    chosen again, or a render of the parent with the same props, each leave
    the whole configuration as it is and give the map no command. *)
Theorem repeated_input_is_silent (c : Config) :
  Reachable toLowerCase c →
  step toLowerCase c (SearchChange (searchTerm (state c))) = JS.Normal (c, [])
  ∧ step toLowerCase c (FilterChange (default "" (filterCategory (state c))))
    = JS.Normal (c, [])
  ∧ step toLowerCase c (PropsChange (props c)) = JS.Normal (c, []).
Proof.
  intros Hr. destruct (Reachable_Settled _ c Hr) as (Hfd & Hft & _ & Hfresh & Hcat & Hst).
  assert (∀ e, handle c e = c → step toLowerCase c e = JS.Normal (c, [])) as Hsame.
  { intros e He. unfold step. rewrite He, commit_defined by done.
    rewrite effects_fit_settled by done. by rewrite decide_True. }
  split_and!; apply Hsame.
  - by destruct c as [? [] ? ? ?].
  - destruct c as [p [sel sty term [cat|] fl] fd ft n]; simpl in *; [|done].
    destruct (JS.truthy cat) eqn:Htruthy; [done|].
    apply truthy_false in Htruthy. congruence.
  - by destruct c.
Qed.

End Repeats.

(** ** The further properties at the example *)

Lemma longer_term_narrows_witness :
  "Beij" ≠ ""
  ∧ Substring (JS.toLowerCaseAscii "bei") (JS.toLowerCaseAscii "Beij")
  ∧ filterLocations JS.toLowerCaseAscii [shanghai; beijing] "Beij" None
      `sublist_of` filterLocations JS.toLowerCaseAscii [shanghai; beijing] "bei" None.
Proof.
  assert (Substring (JS.toLowerCaseAscii "bei") (JS.toLowerCaseAscii "Beij")) as Hsub
    by (apply includes_spec; reflexivity).
  split; [done|]. split; [exact Hsub|].
  apply (longer_term_narrows JS.toLowerCaseAscii [shanghai; beijing] "bei" "Beij" None);
    [done | exact Hsub].
Defined.

Lemma exampleIds_NoDup :
  NoDup (Location.id <$> elements (Props.locations (props exampleConfig))).
Proof. apply (bool_decide_eq_true_1 _). reflexivity. Defined.

Lemma marker_keys_are_unique_witness :
  Reachable JS.toLowerCaseAscii exampleConfig
  ∧ NoDup (Location.id <$> elements (Props.locations (props exampleConfig)))
  ∧ ∃ v, render (props exampleConfig) (state exampleConfig) = JS.Normal v
         ∧ markerKey <$> markers v = [2%Z]
         ∧ NoDup (markerKey <$> markers v).
Proof.
  split; [exact exampleConfig_Reachable|]. split; [exact exampleIds_NoDup|].
  destruct (marker_keys_are_unique JS.toLowerCaseAscii exampleConfig
              exampleConfig_Reachable exampleIds_NoDup)
    as (v & Hv & Hkeys & _ & _ & Hnd).
  exists v. split; [exact Hv|]. split; [exact Hkeys | exact Hnd].
Defined.

Lemma marker_click_selects_only_witness :
  Reachable JS.toLowerCaseAscii exampleConfig
  ∧ step JS.toLowerCaseAscii exampleConfig (MarkerClick 2)
    = JS.Normal
        (withState exampleConfig (setSelectedLocation (Some 2%Z) (state exampleConfig)), []).
Proof.
  split; [exact exampleConfig_Reachable|].
  exact (proj1 (marker_click_selects_only JS.toLowerCaseAscii exampleConfig 2
                  exampleConfig_Reachable)).
Defined.

Lemma exampleConfig_Coherent : Coherent exampleConfig (PropsChange replacedProps).
Proof. intros H. discriminate H. Defined.

Lemma props_change_keeps_view_state_witness :
  Reachable JS.toLowerCaseAscii exampleConfig
  ∧ Coherent exampleConfig (PropsChange replacedProps)
  ∧ ∃ c' cmds,
      step JS.toLowerCaseAscii exampleConfig (PropsChange replacedProps)
      = JS.Normal (c', cmds)
      ∧ props c' = replacedProps
      ∧ currentMapStyle (state c') = currentMapStyle (state exampleConfig)
      ∧ searchTerm (state c') = "BEI"
      ∧ filterCategory (state c') = Some "旅行".
Proof.
  split; [exact exampleConfig_Reachable|]. split; [exact exampleConfig_Coherent|].
  destruct (props_change_keeps_view_state JS.toLowerCaseAscii exampleConfig replacedProps
              exampleConfig_Reachable exampleConfig_Coherent)
    as (c' & cmds & Hstep & Hp & _ & Hsty & Hterm & Hcat & _).
  exists c', cmds. split; [exact Hstep|]. split; [exact Hp|]. split; [exact Hsty|].
  split; [exact Hterm | exact Hcat].
Defined.

Lemma replacedProps_without_journeys :
  ∀ l, l ∈ elements (Props.locations replacedProps) → Location.category l ≠ Some "旅行".
Proof. intros l Hl. apply list_elem_of_singleton in Hl. subst l. discriminate. Defined.

Lemma stale_category_hides_everything_witness :
  Reachable JS.toLowerCaseAscii exampleConfig
  ∧ filterCategory (state exampleConfig) = Some "旅行"
  ∧ arrayId (Props.locations replacedProps)
    ≠ arrayId (Props.locations (props exampleConfig))
  ∧ (∀ l, l ∈ elements (Props.locations replacedProps) →
          Location.category l ≠ Some "旅行")
  ∧ ∃ c' v,
      step JS.toLowerCaseAscii exampleConfig (PropsChange replacedProps)
      = JS.Normal (c', [])
      ∧ render (props c') (state c') = JS.Normal v
      ∧ markers v = [].
Proof.
  assert (arrayId (Props.locations replacedProps)
          ≠ arrayId (Props.locations (props exampleConfig))) as Hid
    by (intros H; discriminate H).
  split; [exact exampleConfig_Reachable|]. split; [reflexivity|]. split; [exact Hid|].
  split; [exact replacedProps_without_journeys|].
  destruct (stale_category_hides_everything JS.toLowerCaseAscii exampleConfig
              replacedProps "旅行" exampleConfig_Reachable eq_refl Hid
              replacedProps_without_journeys)
    as (c' & v & Hstep & _ & _ & Hv & Hm & _).
  exists c', v. split; [exact Hstep|]. split; [exact Hv | exact Hm].
Defined.

Lemma controls_show_what_was_entered_witness :
  Reachable JS.toLowerCaseAscii exampleConfig
  ∧ ∃ c' cmds v,
      step JS.toLowerCaseAscii exampleConfig (FilterChange "") = JS.Normal (c', cmds)
      ∧ filterCategory (state c') = None
      ∧ render (props c') (state c') = JS.Normal v
      ∧ selectValue <$> categorySelect v = Some "".
Proof.
  split; [exact exampleConfig_Reachable|].
  destruct (proj2 (controls_show_what_was_entered JS.toLowerCaseAscii exampleConfig ""
                     exampleConfig_Reachable))
    as (c' & cmds & v & Hstep & _ & Hcat & _ & _ & Hv & Hsel).
  exists c', cmds, v. split; [exact Hstep|]. split; [exact Hcat|].
  split; [exact Hv | exact Hsel].
Defined.

Lemma search_and_category_commute_witness :
  Reachable JS.toLowerCaseAscii exampleConfig
  ∧ ∃ c1 cmds1 c2 cmds2,
      runFrom JS.toLowerCaseAscii exampleConfig [SearchChange "a"; FilterChange "居住"]
      = JS.Normal (c1, cmds1)
      ∧ runFrom JS.toLowerCaseAscii exampleConfig [FilterChange "居住"; SearchChange "a"]
        = JS.Normal (c2, cmds2)
      ∧ items (filteredLocations (state c1)) = items (filteredLocations (state c2)).
Proof.
  split; [exact exampleConfig_Reachable|].
  destruct (search_and_category_commute JS.toLowerCaseAscii exampleConfig "a" "居住"
              exampleConfig_Reachable)
    as (c1 & cmds1 & c2 & cmds2 & H1 & H2 & _ & _ & _ & _ & _ & Hitems).
  exists c1, cmds1, c2, cmds2. split; [exact H1|]. split; [exact H2 | exact Hitems].
Defined.

Lemma style_select_takes_first_match_witness :
  Reachable JS.toLowerCaseAscii exampleConfig
  ∧ step JS.toLowerCaseAscii exampleConfig (StyleChange "Sepia")
    = JS.Normal (exampleConfig, []).
Proof.
  split; [exact exampleConfig_Reachable|].
  apply (proj1 (style_select_takes_first_match JS.toLowerCaseAscii exampleConfig "Sepia"
                  exampleConfig_Reachable)).
  intros style Hstyle.
  change (mapStylesOf (props exampleConfig)) with defaultMapStyles in Hstyle.
  unfold defaultMapStyles in Hstyle. rewrite !elem_of_cons, elem_of_nil in Hstyle.
  destruct Hstyle as [->|[->|[->|[->|[]]]]]; discriminate.
Defined.

Lemma current_style_is_offered_witness :
  forallb (λ e, negb (isPropsChange e)) (exampleEvents ++ [StyleChange "Dark"]) = true
  ∧ ∃ c cmds st,
      run JS.toLowerCaseAscii exampleProps (exampleEvents ++ [StyleChange "Dark"])
      = JS.Normal (c, cmds)
      ∧ currentMapStyle (state c) = Some st
      ∧ st ∈ mapStylesOf exampleProps.
Proof.
  split; [reflexivity|].
  destruct (current_style_is_offered JS.toLowerCaseAscii exampleProps
              (exampleEvents ++ [StyleChange "Dark"]) eq_refl)
    as (c & cmds & st & v & Hrun & _ & Hst & Hin & _).
  exists c, cmds, st. split; [exact Hrun|]. split; [exact Hst | exact Hin].
Defined.

Lemma repeated_input_is_silent_witness :
  Reachable JS.toLowerCaseAscii exampleConfig
  ∧ step JS.toLowerCaseAscii exampleConfig (PropsChange (props exampleConfig))
    = JS.Normal (exampleConfig, []).
Proof.
  split; [exact exampleConfig_Reachable|].
  exact (proj2 (proj2 (repeated_input_is_silent JS.toLowerCaseAscii exampleConfig
                         exampleConfig_Reachable))).
Defined.
